(** * wappd codec core: JPEG segments, EXIF/TIFF payload, MP4 atoms, mvhd patch

    Shallow embedding of the Go package [internal/processor] of wappd:
    - [jpeg_segments.go]: ParseJPEGSegments, FindAPP1Segment, ReassembleJPEG,
      InsertEXIFSegment;
    - [exif_tags.go] and the EXIF builder: CreateTagEntry, CreateIFD,
      CreateTIFFHeader, FormatDateTimeOriginal, CreateEXIFSegment;
    - [mp4_atoms.go]: ParseMP4Atoms, parseChildAtoms, FindAtom,
      FindAtomRecursive, UnixToQuickTime, QuickTimeToUnix;
    - [video_metadata.go]: findAtomPosition, findAtomInChildren,
      updateMvhdCreationTime and the codec part of UpdateVideoMetadata.

    Bytes are [Byte.byte]; integers of the Go code are [Z] with their
    wrap-around written out.  A Go call returns a value, an error, or
    panics: this is the type [outcome].  Loops over a buffer are written on
    the remaining suffix [data[pos:]] with a fuel argument that bounds the
    number of iterations; every iteration advances [pos], so the fuel given
    at the entry points (the buffer length) is never exhausted. *)

From Stdlib Require Import ZArith List Bool Lia String.
Import ListNotations.
Open Scope Z_scope.

(** ** Go outcomes *)

(** The errors the Go code builds with [fmt.Errorf], one constructor per
    message. *)
Inductive error :=
  (* jpeg_segments.go *)
  | ErrJPEGTooShort                (* "invalid JPEG: file too short" *)
  | ErrMissingSOI                  (* "invalid JPEG: missing SOI marker" *)
  | ErrIncompleteSegmentLength     (* "invalid JPEG: incomplete segment length" *)
  | ErrInvalidSegmentLength        (* "invalid JPEG: invalid segment length" *)
  | ErrSegmentBeyondFile           (* "invalid JPEG: segment extends beyond file" *)
  | ErrParseJPEG (e : error)       (* "failed to parse JPEG: %v" *)
  (* mp4_atoms.go *)
  | ErrEmptyData                   (* "empty data" *)
  | ErrDataTooShort (n : Z)        (* "data too short: need at least 8 bytes ..., got %d" *)
  | ErrExtendedSizeBeyondFile      (* "invalid atom: extended size extends beyond file" *)
  | ErrExtendedSizeNotSupported    (* "extended size atoms not yet supported" *)
  | ErrAtomSizeBeyondFile (s : Z)  (* "invalid atom: size %d extends beyond file" *)
  | ErrExtendedSizeInChildren      (* "extended size atoms not yet supported in children" *)
  (* video_metadata.go *)
  | ErrFindExtendedSize            (* "extended size atoms not supported" *)
  | ErrAtomNotFound                (* "atom %s not found" *)
  | ErrAtomNotFoundInChildren      (* "atom %s not found in children" *)
  | ErrFindMvhdPosition (e : error)(* "failed to find mvhd position: %v" *)
  | ErrMvhdTooShort                (* "mvhd atom data too short" *)
  | ErrMvhdBeyondFile              (* "mvhd atom extends beyond file" *)
  | ErrUnsupportedMvhdVersion (v : Z) (* "unsupported mvhd version: %d" *)
  | ErrVideoTooShort               (* "file too short to be a valid MP4/MOV/3GP" *)
  | ErrMissingFtyp                 (* "file does not appear to be a valid MP4/MOV/3GP ..." *)
  | ErrParseMP4 (e : error)        (* "failed to parse MP4 atoms: %v" *)
  | ErrMoovNotFound                (* "moov atom not found" *)
  | ErrMvhdNotFound                (* "mvhd atom not found in moov" *)
  | ErrUpdateMvhd (e : error).     (* "failed to update mvhd: %v" *)

Inductive outcome (A : Type) :=
  | Ok (a : A)
  | Err (e : error)
  | Panic.
Arguments Ok {A} a.
Arguments Err {A} e.
Arguments Panic {A}.

Definition bind {A B} (m : outcome A) (k : A -> outcome B) : outcome B :=
  match m with
  | Ok a => k a
  | Err e => Err e
  | Panic => Panic
  end.

Notation "x <- m ;; k" := (bind m (fun x => k))
  (at level 61, m at next level, right associativity).

(** [if err != nil { return nil, fmt.Errorf("...: %v", err) }] *)
Definition wrap_err {A} (w : error -> error) (m : outcome A) : outcome A :=
  match m with
  | Err e => Err (w e)
  | m => m
  end.

(** The error kinds of the specification (section 7) and the kind of each
    Go error: a short header or an overrunning length is a format error,
    an extended atom size or an unknown mvhd version is an unsupported
    feature, a missing atom is not found. *)
Inductive error_kind := FormatError | UnsupportedFeature | NotFound.

Fixpoint kind_of (e : error) : error_kind :=
  match e with
  | ErrExtendedSizeNotSupported | ErrExtendedSizeInChildren
  | ErrFindExtendedSize | ErrUnsupportedMvhdVersion _ => UnsupportedFeature
  | ErrAtomNotFound | ErrAtomNotFoundInChildren
  | ErrMoovNotFound | ErrMvhdNotFound => NotFound
  | ErrParseJPEG e | ErrFindMvhdPosition e | ErrParseMP4 e
  | ErrUpdateMvhd e => kind_of e
  | _ => FormatError
  end.

(** ** Bytes *)

Definition bz (b : Byte.byte) : Z := Z.of_N (Byte.to_N b).

(** [byte(v)] in Go: the low 8 bits. *)
Definition zb (z : Z) : Byte.byte :=
  match Byte.of_N (Z.to_N (z mod 256)) with
  | Some b => b
  | None => Byte.x00
  end.

Definition bytes_eqb (a b : list Byte.byte) : bool :=
  if list_eq_dec Byte.byte_eq_dec a b then true else false.

Definition bytes_of (s : string) : list Byte.byte := list_byte_of_string s.

(** [binary.BigEndian.Uint16] / [Uint32] on the first bytes of a list. *)
Definition be16 (b0 b1 : Byte.byte) : Z := bz b0 * 256 + bz b1.
Definition be32 (b0 b1 b2 b3 : Byte.byte) : Z :=
  ((bz b0 * 256 + bz b1) * 256 + bz b2) * 256 + bz b3.

(** [binary.BigEndian.PutUint16] / [PutUint32] / [PutUint64] and the
    little-endian versions: the bytes written. *)
Definition be16_bytes (v : Z) : list Byte.byte :=
  [zb (Z.shiftr v 8); zb v].
Definition be32_bytes (v : Z) : list Byte.byte :=
  [zb (Z.shiftr v 24); zb (Z.shiftr v 16); zb (Z.shiftr v 8); zb v].
Definition be64_bytes (v : Z) : list Byte.byte :=
  be32_bytes (Z.shiftr v 32) ++ be32_bytes v.
Definition le16_bytes (v : Z) : list Byte.byte :=
  [zb v; zb (Z.shiftr v 8)].
Definition le32_bytes (v : Z) : list Byte.byte :=
  [zb v; zb (Z.shiftr v 8); zb (Z.shiftr v 16); zb (Z.shiftr v 24)].

(** ** JPEG segment codec (jpeg_segments.go) *)

Definition markerSOI : Z := 0xD8.
Definition markerEOI : Z := 0xD9.
Definition markerAPP1 : Z := 0xE1.
Definition markerAPP0 : Z := 0xE0.
Definition markerSOF0 : Z := 0xC0.
Definition markerSOF3 : Z := 0xC3.

Record JPEGSegment := {
  Marker : Byte.byte;        (* marker type *)
  Length : Z;                (* uint16, includes the 2 length bytes *)
  Payload : list Byte.byte   (* excluding marker and length *)
}.

Definition is_sof (m : Byte.byte) : bool :=
  (markerSOF0 <=? bz m) && (bz m <=? markerSOF3).

(** The inner scan [for pos < len(data)-1 && (data[pos] != 0xFF ||
    data[pos+1] == 0xFF || data[pos+1] == 0x00) { pos++ }], on the
    suffix [data[pos:]]. *)
Fixpoint skip_to_marker (r : list Byte.byte) : list Byte.byte :=
  match r with
  | b0 :: ((b1 :: _) as tl) =>
      if (bz b0 =? 0xFF) && negb (bz b1 =? 0xFF) && negb (bz b1 =? 0x00)
      then r else skip_to_marker tl
  | _ => r
  end.

(** The main loop of ParseJPEGSegments on [data[pos:]]; it returns the
    segments it appends from here on. *)
Fixpoint parse_segments_loop (fuel : nat) (r : list Byte.byte)
  : outcome (list JPEGSegment) :=
  match fuel with
  | O => Ok []
  | S f =>
      match r with
      | [] => Ok []                                  (* pos < len(data) fails *)
      | _ =>
          match skip_to_marker r with
          | _ :: m :: tl =>
              if bz m =? markerEOI then Ok []         (* EOI: break *)
              else if is_sof m then Ok []             (* SOF: break *)
              else
                match tl with
                | l0 :: l1 :: tl' =>
                    let length := be16 l0 l1 in
                    if length <? 2 then Err ErrInvalidSegmentLength
                    else if Z.of_nat (List.length tl') <? length - 2
                    then Err ErrSegmentBeyondFile
                    else
                      let payload := firstn (Z.to_nat (length - 2)) tl' in
                      segs <- parse_segments_loop f (skipn (Z.to_nat (length - 2)) tl') ;;
                      Ok ({| Marker := m; Length := length; Payload := payload |} :: segs)
                | _ => Err ErrIncompleteSegmentLength    (* pos+3 >= len(data) *)
                end
          | _ => Ok []                                (* pos >= len(data)-1: break *)
          end
      end
  end.

Definition ParseJPEGSegments (data : list Byte.byte) : outcome (list JPEGSegment) :=
  match data with
  | b0 :: b1 :: r =>
      if (bz b0 =? 0xFF) && (bz b1 =? markerSOI)
      then parse_segments_loop (List.length data) r
      else Err ErrMissingSOI
  | _ => Err ErrJPEGTooShort
  end.

Definition exif_identifier : list Byte.byte := bytes_of "Exif" ++ [Byte.x00; Byte.x00].

Definition is_exif_segment (s : JPEGSegment) : bool :=
  (bz (Marker s) =? markerAPP1) && (6 <=? List.length (Payload s))%nat
  && bytes_eqb (firstn 6 (Payload s)) exif_identifier.

(** FindAPP1Segment: [(i, &seg)] for the first EXIF APP1 segment, or
    [(-1, nil)], here [None]. *)
Fixpoint find_app1_from (i : nat) (segs : list JPEGSegment)
  : option (nat * JPEGSegment) :=
  match segs with
  | [] => None
  | s :: rest => if is_exif_segment s then Some (i, s) else find_app1_from (S i) rest
  end.

Definition FindAPP1Segment (segs : list JPEGSegment) := find_app1_from 0 segs.

Definition emit_segment (s : JPEGSegment) : list Byte.byte :=
  [Byte.xff; Marker s] ++ be16_bytes (Length s) ++ Payload s.

Definition eoi_bytes : list Byte.byte := [Byte.xff; Byte.xd9].

(** [bytes.HasSuffix(imageData, []byte{0xFF, markerEOI})] *)
Definition has_eoi_suffix (img : list Byte.byte) : bool :=
  (2 <=? List.length img)%nat && bytes_eqb (skipn (List.length img - 2) img) eoi_bytes.

Definition ReassembleJPEG (segs : list JPEGSegment) (imageData : list Byte.byte)
  : list Byte.byte :=
  [Byte.xff; Byte.xd8] ++ List.concat (map emit_segment segs) ++ imageData
  ++ (if (List.length imageData =? 0)%nat || negb (has_eoi_suffix imageData)
      then eoi_bytes else []).

(** [segments[i] = v] *)
Fixpoint list_set {A} (l : list A) (i : nat) (v : A) : list A :=
  match l, i with
  | [], _ => []
  | _ :: t, O => v :: t
  | x :: t, S j => x :: list_set t j v
  end.

(** The raw rescan of InsertEXIFSegment on [data[pos:]]: the position of
    the first SOF or EOI marker it meets, or [None] when the loop ends
    without one (then [segmentsEnd] keeps its initial value 2). *)
Fixpoint rescan_loop (fuel : nat) (pos : Z) (r : list Byte.byte) : option Z :=
  match fuel with
  | O => None
  | S f =>
      match r with
      | b0 :: m :: tl =>
          if negb (bz b0 =? 0xFF) then rescan_loop f (pos + 1) (m :: tl)
          else if is_sof m then Some pos
          else if bz m =? markerEOI then Some pos
          else
            match tl with
            | l0 :: l1 :: _ =>
                let length := be16 l0 l1 in
                rescan_loop f (pos + 2 + length) (skipn (Z.to_nat (2 + length)) r)
            | _ => None
            end
      | _ => None
      end
  end.

Definition segments_end (data : list Byte.byte) : Z :=
  match rescan_loop (List.length data) 2 (skipn 2 data) with
  | Some p => p
  | None => 2
  end.

(** The new segment list: the first EXIF segment replaced in place, or the
    new APP1 segment prepended. *)
Definition new_app1 (exifPayload : list Byte.byte) : JPEGSegment :=
  {| Marker := Byte.xe1;
     Length := (Z.of_nat (List.length exifPayload) + 2) mod 65536;
     Payload := exifPayload |}.

Definition replace_or_prepend (segs : list JPEGSegment) (seg : JPEGSegment) :=
  match FindAPP1Segment segs with
  | Some (i, _) => list_set segs i seg
  | None => seg :: segs
  end.

Definition InsertEXIFSegment (data exifPayload : list Byte.byte)
  : outcome (list Byte.byte) :=
  segs <- wrap_err ErrParseJPEG (ParseJPEGSegments data) ;;
  let segs' := replace_or_prepend segs (new_app1 exifPayload) in
  let imageData := skipn (Z.to_nat (segments_end data)) data in
  Ok (ReassembleJPEG segs' imageData).

(** Segments the encoder can emit and the parser reads back: a length
    field equal to the payload length plus 2 that fits 16 bits, and a
    marker other than the fill byte 0xFF, the stuffing byte 0x00, SOI, EOI
    and SOF0-SOF3. *)
Definition marker_ok (m : Byte.byte) : bool :=
  negb (bz m =? 0xFF) && negb (bz m =? 0x00) && negb (bz m =? markerSOI)
  && negb (bz m =? markerEOI) && negb (is_sof m).

Definition segment_ok (s : JPEGSegment) : bool :=
  (Length s =? Z.of_nat (List.length (Payload s)) + 2) && (Length s <? 65536)
  && marker_ok (Marker s).

(** Image data as InsertEXIFSegment cuts it: empty, or starting at an SOF
    or EOI marker. *)
Definition image_start_ok (D : list Byte.byte) : bool :=
  match D with
  | [] => true
  | b0 :: m :: _ => (bz b0 =? 0xFF) && (is_sof m || (bz m =? markerEOI))
  | _ => false
  end.

(** The number of EXIF APP1 segments in a segment list. *)
Definition count_exif (segs : list JPEGSegment) : nat :=
  List.length (filter is_exif_segment segs).

(** The number of offsets at which [pat] occurs in [l]. *)
Definition occurrences (pat l : list Byte.byte) : nat :=
  List.length (filter (fun i => bytes_eqb (firstn (List.length pat) (skipn i l)) pat)
                      (seq 0 (List.length l))).

(** ** EXIF/TIFF builder (exif_tags.go, CreateEXIFSegment) *)

Definition tagImageWidth : Z := 0x0100.
Definition tagImageLength : Z := 0x0101.
Definition tagOrientation : Z := 0x0112.
Definition tagExifIFD : Z := 0x8769.
Definition tagDateTimeOriginal : Z := 0x9003.

Definition typeASCII : Z := 2.
Definition typeShort : Z := 3.
Definition typeLong : Z := 4.

(** [binary.ByteOrder]: the two implementations the code uses. *)
Inductive ByteOrder := LittleEndian | BigEndian.

Definition put_uint16 (o : ByteOrder) (v : Z) : list Byte.byte :=
  match o with LittleEndian => le16_bytes v | BigEndian => be16_bytes v end.
Definition put_uint32 (o : ByteOrder) (v : Z) : list Byte.byte :=
  match o with LittleEndian => le32_bytes v | BigEndian => be32_bytes v end.

Record TagEntry := {
  TagID : Z;     (* uint16 *)
  TagType : Z;   (* uint16 *)
  Count : Z;     (* uint32 *)
  Value : Z      (* uint32, value or offset *)
}.

Definition CreateTagEntry (tagID tagType count valueOrOffset : Z) (o : ByteOrder)
  : list Byte.byte :=
  put_uint16 o tagID ++ put_uint16 o tagType ++ put_uint32 o count
  ++ put_uint32 o valueOrOffset.

Definition CreateIFD (entries : list TagEntry) (nextIFDOffset : Z) (o : ByteOrder)
  : list Byte.byte :=
  put_uint16 o (Z.of_nat (List.length entries) mod 65536)
  ++ List.concat (map (fun e => CreateTagEntry (TagID e) (TagType e) (Count e) (Value e) o)
                      entries)
  ++ put_uint32 o nextIFDOffset.

Definition CreateTIFFHeader (o : ByteOrder) (ifdOffset : Z) : list Byte.byte :=
  match o with
  | LittleEndian => bytes_of "II" ++ le16_bytes 42 ++ le32_bytes ifdOffset
  | BigEndian => bytes_of "MM" ++ be16_bytes 42 ++ be32_bytes ifdOffset
  end.

(** A [time.Time] as the calendar fields [t.Format] prints (the Go standard
    library's decomposition of the instant, in UTC). *)
Record time := {
  year : Z; month : Z; day : Z; hour : Z; minute : Z; second : Z
}.

Definition digit (u : Z) : Byte.byte := zb (48 + u).

(** Decimal digits of [u >= 0], most significant first (at most [n]). *)
Fixpoint decimal (n : nat) (u : Z) (acc : list Byte.byte) : list Byte.byte :=
  match n with
  | O => acc
  | S n' =>
      let acc' := digit (u mod 10) :: acc in
      if u <? 10 then acc' else decimal n' (u / 10) acc'
  end.

(** [appendInt(b, x, width)] of Go's time formatting: a sign, zero padding
    up to [width], then the decimal digits; widths 2 and 4 have the fast
    paths of the source. *)
Definition appendInt (x : Z) (width : Z) : list Byte.byte :=
  let sign := if x <? 0 then [Byte.x2d] else [] in
  let u := Z.abs x in
  if (width =? 2) && (u <? 100) then sign ++ [digit (u / 10); digit (u mod 10)]
  else if (width =? 4) && (u <? 10000) then
    sign ++ [digit (u / 1000); digit (u / 100 mod 10); digit (u / 10 mod 10);
             digit (u mod 10)]
  else
    let ds := decimal 20 u [] in
    sign ++ repeat (zb 48) (Z.to_nat (width - Z.of_nat (List.length ds))) ++ ds.

(** [t.Format("2006:01:02 15:04:05") + "\x00"] *)
Definition FormatDateTimeOriginal (t : time) : list Byte.byte :=
  appendInt (year t) 4 ++ bytes_of ":" ++ appendInt (month t) 2 ++ bytes_of ":"
  ++ appendInt (day t) 2 ++ bytes_of " " ++ appendInt (hour t) 2 ++ bytes_of ":"
  ++ appendInt (minute t) 2 ++ bytes_of ":" ++ appendInt (second t) 2
  ++ [Byte.x00].

Definition ifd0Offset : Z := 8.
Definition exifIFDOffset : Z := ifd0Offset + 2 + 4 * 12 + 4.
Definition dateTimeOffset : Z := exifIFDOffset + 2 + 1 * 12 + 4.

Definition CreateEXIFSegment (dateTime : time) : list Byte.byte :=
  let byteOrder := LittleEndian in
  let dateTimeBytes := FormatDateTimeOriginal dateTime in
  let ifd0Entries :=
    [ {| TagID := tagImageWidth; TagType := typeLong; Count := 1; Value := 0 |};
      {| TagID := tagImageLength; TagType := typeLong; Count := 1; Value := 0 |};
      {| TagID := tagOrientation; TagType := typeShort; Count := 1; Value := 1 |};
      {| TagID := tagExifIFD; TagType := typeLong; Count := 1;
         Value := exifIFDOffset mod 2^32 |} ] in
  let exifIFDEntries :=
    [ {| TagID := tagDateTimeOriginal; TagType := typeASCII;
         Count := Z.of_nat (List.length dateTimeBytes) mod 2^32;
         Value := dateTimeOffset mod 2^32 |} ] in
  let ifd0 := CreateIFD ifd0Entries 0 byteOrder in
  let exifIFD := CreateIFD exifIFDEntries 0 byteOrder in
  let tiffHeader := CreateTIFFHeader byteOrder (ifd0Offset mod 2^32) in
  exif_identifier ++ tiffHeader ++ ifd0 ++ exifIFD ++ dateTimeBytes.

(** Reading back: little-endian 16/32-bit fields at an offset. *)
Definition le16_at (l : list Byte.byte) (i : nat) : Z :=
  bz (nth i l Byte.x00) + 256 * bz (nth (S i) l Byte.x00).
Definition le32_at (l : list Byte.byte) (i : nat) : Z :=
  le16_at l i + 65536 * le16_at l (i + 2).

(** The range of calendar fields whose [DateTimeOriginal] text has the
    fixed "YYYY:MM:DD HH:MM:SS" shape: a four-digit year. *)
Definition valid_time (t : time) : Prop :=
  0 <= year t <= 9999 /\ 1 <= month t <= 12 /\ 1 <= day t <= 31
  /\ 0 <= hour t <= 23 /\ 0 <= minute t <= 59 /\ 0 <= second t <= 59.

Definition two_digits (x : Z) : list Byte.byte := [digit (x / 10); digit (x mod 10)].

Definition four_digits (x : Z) : list Byte.byte :=
  [digit (x / 1000); digit (x / 100 mod 10); digit (x / 10 mod 10); digit (x mod 10)].

(** ** MP4 atoms (mp4_atoms.go) *)

Definition quickTimeEpochOffset : Z := 2082844800.

Set Warnings "-register-all".

Inductive Atom := mkAtom {
  Size : Z;                     (* uint32, including the header *)
  Atom_Type : list Byte.byte;   (* 4 characters *)
  Data : list Byte.byte;        (* excluding the 8-byte header *)
  Children : list Atom          (* for container atoms *)
}.

Definition container_atoms : list string :=
  ["moov"; "trak"; "mdia"; "minf"; "stbl"; "edts"; "udta"]%string.

Definition isContainerAtom (atomType : list Byte.byte) : bool :=
  existsb (fun s => bytes_eqb atomType (bytes_of s)) container_atoms.

(** [atomData := make([]byte, size-8); if size > 8 { copy(atomData,
    data[pos+8:pos+int(size)]) }]: [size-8] is a uint32 subtraction. *)
Definition atom_data (size : Z) (r : list Byte.byte) : list Byte.byte :=
  if 8 <? size then firstn (Z.to_nat (size - 8)) (skipn 8 r)
  else repeat Byte.x00 (Z.to_nat ((size - 8) mod 2^32)).

(** [children, err := parseChildAtoms(atomData); if err == nil {
    atom.Children = children }] *)
Definition keep_children (m : outcome (list Atom)) : outcome (list Atom) :=
  match m with
  | Ok cs => Ok cs
  | Err _ => Ok []
  | Panic => Panic
  end.

(** The loop of parseChildAtoms on [data[pos:]]; the fuel also bounds the
    recursion into the children (a container's body is shorter than the
    suffix it comes from, or is the all-zero body of a declared size below
    8, whose single atom has type 0000 and no children). *)
Fixpoint parse_child_loop (fuel : nat) (r : list Byte.byte) : outcome (list Atom) :=
  match fuel with
  | O => Ok []
  | S f =>
      match r with
      | s0 :: s1 :: s2 :: s3 :: t0 :: t1 :: t2 :: t3 :: _ =>
          let size0 := be32 s0 s1 s2 s3 in
          let atomType := [t0; t1; t2; t3] in
          let rem := Z.of_nat (List.length r) in
          if size0 =? 1 then Err ErrExtendedSizeInChildren
          else
            let size := if size0 =? 0 then rem mod 2^32 else size0 in
            if rem <? size then Ok []                       (* break: invalid size *)
            else
              let atomData := atom_data size r in
              children <- (if isContainerAtom atomType && (0 <? List.length atomData)%nat
                           then keep_children (parse_child_loop f atomData)
                           else Ok []) ;;
              rest <- parse_child_loop f (skipn (Z.to_nat size) r) ;;
              Ok (mkAtom size atomType atomData children :: rest)
      | _ => Ok []                                          (* pos+8 > len: break *)
      end
  end.

Definition parseChildAtoms (data : list Byte.byte) : outcome (list Atom) :=
  parse_child_loop (List.length data) data.

(** The loop of ParseMP4Atoms on [data[pos:]]; [first] holds while no atom
    has been appended yet ([len(atoms) == 0]). *)
Fixpoint parse_atoms_loop (fuel : nat) (first : bool) (r : list Byte.byte)
  : outcome (list Atom) :=
  match fuel with
  | O => Ok []
  | S f =>
      match r with
      | [] => Ok []                                         (* pos < len fails *)
      | s0 :: s1 :: s2 :: s3 :: t0 :: t1 :: t2 :: t3 :: _ =>
          let size0 := be32 s0 s1 s2 s3 in
          let atomType := [t0; t1; t2; t3] in
          let rem := Z.of_nat (List.length r) in
          if size0 =? 1 then
            if rem <? 16 then Err ErrExtendedSizeBeyondFile
            else Err ErrExtendedSizeNotSupported
          else
            let size := if size0 =? 0 then rem mod 2^32 else size0 in
            if rem <? size then Err (ErrAtomSizeBeyondFile size)
            else
              let atomData := atom_data size r in
              children <- (if isContainerAtom atomType && (0 <? List.length atomData)%nat
                           then keep_children (parseChildAtoms atomData)
                           else Ok []) ;;
              rest <- parse_atoms_loop f false (skipn (Z.to_nat size) r) ;;
              Ok (mkAtom size atomType atomData children :: rest)
      | _ =>                                                (* pos+8 > len *)
          if first then Err (ErrDataTooShort (Z.of_nat (List.length r))) else Ok []
      end
  end.

Definition ParseMP4Atoms (data : list Byte.byte) : outcome (list Atom) :=
  match data with
  | [] => Err ErrEmptyData
  | _ => parse_atoms_loop (List.length data) true data
  end.

Definition FindAtom (atoms : list Atom) (atomType : list Byte.byte) : option Atom :=
  find (fun a => bytes_eqb (Atom_Type a) atomType) atoms.

Fixpoint FindAtomRecursive (atom : Atom) (atomType : list Byte.byte) : option Atom :=
  match atom with
  | mkAtom _ ty _ cs =>
      if bytes_eqb ty atomType then Some atom
      else
        (fix go (cs : list Atom) : option Atom :=
           match cs with
           | [] => None
           | c :: cs' =>
               match FindAtomRecursive c atomType with
               | Some found => Some found
               | None => go cs'
               end
           end) cs
  end.

(** int64 addition wraps; [uint32(x)] keeps the low 32 bits. *)
Definition int64_wrap (x : Z) : Z := (x + 2^63) mod 2^64 - 2^63.

Definition UnixToQuickTime (unixTime : Z) : Z :=
  int64_wrap (unixTime + quickTimeEpochOffset) mod 2^32.

Definition QuickTimeToUnix (qtTime : Z) : Z :=
  int64_wrap (qtTime - quickTimeEpochOffset).

(** ** mvhd patch (video_metadata.go) *)

(** A Go byte slice seen as its backing array, its offset in it and its
    length; its capacity runs to the end of the backing array. *)
Record view := { varr : list Byte.byte; voff : Z; vlen : Z }.

Definition vcap (v : view) : Z := Z.of_nat (List.length (varr v)) - voff v.

(** [v[i]] for [0 <= i < len(v)] *)
Definition vget (v : view) (i : Z) : Byte.byte :=
  nth (Z.to_nat (voff v + i)) (varr v) Byte.x00.

(** [v[lo:hi]]: panics unless [0 <= lo <= hi <= cap(v)]. *)
Definition reslice (v : view) (lo hi : Z) : outcome view :=
  if (0 <=? lo) && (lo <=? hi) && (hi <=? vcap v)
  then Ok {| varr := varr v; voff := voff v + lo; vlen := hi - lo |}
  else Panic.

(** [if childPos, err := ...; err == nil { return pos + 8 + childPos }] *)
Definition child_hit (pos : Z) (m : outcome Z) : outcome (option Z) :=
  match m with
  | Ok cp => Ok (Some (pos + 8 + cp))
  | Err _ => Ok None
  | Panic => Panic
  end.

Fixpoint findAtomInChildren_loop (fuel : nat) (v : view) (atomType : list Byte.byte)
  (pos : Z) : outcome Z :=
  match fuel with
  | O => Err ErrAtomNotFoundInChildren
  | S f =>
      if (pos <? vlen v) && (pos + 8 <=? vlen v) then
        let size := be32 (vget v pos) (vget v (pos + 1)) (vget v (pos + 2)) (vget v (pos + 3)) in
        let currentType := [vget v (pos + 4); vget v (pos + 5); vget v (pos + 6); vget v (pos + 7)] in
        if bytes_eqb currentType atomType then Ok pos
        else if size =? 0 then Err ErrAtomNotFoundInChildren
        else if size =? 1 then Err ErrFindExtendedSize
        else
          found <- (if isContainerAtom currentType && (8 <? size) then
                      child <- reslice v (pos + 8) (pos + size) ;;
                      child_hit pos (findAtomInChildren_loop f child atomType 0)
                    else Ok None) ;;
          match found with
          | Some p => Ok p
          | None => findAtomInChildren_loop f v atomType (pos + size)
          end
      else Err ErrAtomNotFoundInChildren
  end.

Definition findAtomInChildren (v : view) (atomType : list Byte.byte) : outcome Z :=
  findAtomInChildren_loop (S (List.length (varr v))) v atomType 0.

Fixpoint findAtomPosition_loop (fuel : nat) (v : view) (atomType : list Byte.byte)
  (pos : Z) : outcome Z :=
  match fuel with
  | O => Err ErrAtomNotFound
  | S f =>
      if (pos <? vlen v) && (pos + 8 <=? vlen v) then
        let size := be32 (vget v pos) (vget v (pos + 1)) (vget v (pos + 2)) (vget v (pos + 3)) in
        let currentType := [vget v (pos + 4); vget v (pos + 5); vget v (pos + 6); vget v (pos + 7)] in
        if bytes_eqb currentType atomType then Ok pos
        else if size =? 0 then Err ErrAtomNotFound
        else if size =? 1 then Err ErrFindExtendedSize
        else
          found <- (if isContainerAtom currentType && (8 <? size) then
                      child <- reslice v (pos + 8) (pos + size) ;;
                      child_hit pos (findAtomInChildren child atomType)
                    else Ok None) ;;
          match found with
          | Some p => Ok p
          | None => findAtomPosition_loop f v atomType (pos + size)
          end
      else Err ErrAtomNotFound
  end.

Definition findAtomPosition (v : view) (atomType : list Byte.byte) : outcome Z :=
  findAtomPosition_loop (S (List.length (varr v))) v atomType 0.

(** The Go heap of byte arrays: a slice names its backing array, so the
    input buffer and the copy [newData] of updateMvhdCreationTime are
    distinct objects and a write to one leaves the other as it was. *)
Definition heap := list (list Byte.byte).

Record slice := { sarr : nat; soff : Z; slen : Z }.

Definition view_of (h : heap) (s : slice) : view :=
  {| varr := nth (sarr s) h []; voff := soff s; vlen := slen s |}.

(** The bytes [s[0:len(s)]]. *)
Definition slice_bytes (h : heap) (s : slice) : list Byte.byte :=
  firstn (Z.to_nat (slen s)) (skipn (Z.to_nat (soff s)) (nth (sarr s) h [])).

(** [newData := make([]byte, len(data)); copy(newData, data)]: a fresh
    array at the end of the heap. *)
Definition make_copy (h : heap) (s : slice) : heap * slice :=
  (h ++ [slice_bytes h s], {| sarr := List.length h; soff := 0; slen := slen s |}).

(** [binary.BigEndian.PutUintN(s[lo:lo+n], v)] with [bs] the [n] bytes of
    [v]: the slice expression panics past the capacity of [s]. *)
Definition put_bytes (h : heap) (s : slice) (lo : Z) (bs : list Byte.byte) : outcome heap :=
  let a := nth (sarr s) h [] in
  if (0 <=? lo) && (lo + Z.of_nat (List.length bs) <=? Z.of_nat (List.length a) - soff s)
  then
    let i := Z.to_nat (soff s + lo) in
    Ok (list_set h (sarr s) (firstn i a ++ bs ++ skipn (i + List.length bs) a))
  else Panic.

Definition mvhd_type : list Byte.byte := bytes_of "mvhd".

(** updateMvhdCreationTime; [unixTime] is [dateTime.Unix()].  It returns
    the heap after the writes and the slice [newData]. *)
Definition updateMvhdCreationTime (h : heap) (data : slice) (mvhdAtom : Atom)
  (unixTime : Z) : outcome (heap * slice) :=
  mvhdPos <- wrap_err ErrFindMvhdPosition (findAtomPosition (view_of h data) mvhd_type) ;;
  if (List.length (Data mvhdAtom) <? 4)%nat then Err ErrMvhdTooShort
  else
    let version := bz (nth 0 (Data mvhdAtom) Byte.x00) in
    let creationTimeOffset := 4 in
    let qtTime := UnixToQuickTime unixTime in
    let (h1, newData) := make_copy h data in
    if version =? 0 then
      if slen newData <? mvhdPos + 8 + creationTimeOffset + 4 then Err ErrMvhdBeyondFile
      else
        h2 <- put_bytes h1 newData (mvhdPos + 8 + creationTimeOffset) (be32_bytes qtTime) ;;
        h3 <- put_bytes h2 newData (mvhdPos + 8 + creationTimeOffset + 4) (be32_bytes qtTime) ;;
        Ok (h3, newData)
    else if version =? 1 then
      if slen newData <? mvhdPos + 8 + creationTimeOffset + 8 then Err ErrMvhdBeyondFile
      else
        h2 <- put_bytes h1 newData (mvhdPos + 8 + creationTimeOffset) (be64_bytes qtTime) ;;
        h3 <- put_bytes h2 newData (mvhdPos + 8 + creationTimeOffset + 8) (be64_bytes qtTime) ;;
        Ok (h3, newData)
    else Err (ErrUnsupportedMvhdVersion version).

(** The codec part of UpdateVideoMetadata, between [readFile] and
    [writeFile]: check [ftyp], parse, find [moov] and [mvhd], patch. *)
Definition patchVideoMetadata (h : heap) (data : slice) (unixTime : Z)
  : outcome (heap * slice) :=
  let bytes := slice_bytes h data in
  if slen data <? 8 then Err ErrVideoTooShort
  else if negb (bytes_eqb (firstn 4 (skipn 4 bytes)) (bytes_of "ftyp")) then Err ErrMissingFtyp
  else
    atoms <- wrap_err ErrParseMP4 (ParseMP4Atoms bytes) ;;
    match FindAtom atoms (bytes_of "moov") with
    | None => Err ErrMoovNotFound
    | Some moovAtom =>
        match FindAtomRecursive moovAtom mvhd_type with
        | None => Err ErrMvhdNotFound
        | Some mvhdAtom => wrap_err ErrUpdateMvhd (updateMvhdCreationTime h data mvhdAtom unixTime)
        end
    end.

(** A buffer held by a slice literal: one array, capacity = length. *)
Definition literal (bytes : list Byte.byte) : heap * slice :=
  ([bytes], {| sarr := 0; soff := 0; slen := Z.of_nat (List.length bytes) |}).

(** ** Fixtures *)

Definition bytes_z (l : list Z) : list Byte.byte := map zb l.

(** The byte sequence of the specification's parseSegments example. *)
Definition exif_then_sof : list Byte.byte :=
  bytes_z [0xFF; 0xD8; 0xFF; 0xE1; 0x00; 0x10] ++ bytes_of "Exif"
  ++ bytes_z [0; 0; 0x49; 0x49; 0x2A; 0x00; 0x08; 0x00; 0x00; 0x00; 0xFF; 0xC0].

(** A minimal movie: [ftyp] (16 bytes), then [moov] holding one version-0
    [mvhd] of the standard 108 bytes; [flags], [ctime], [mtime] are the
    mvhd fields after the version byte, the timescale is 1000 and the
    remaining 84 bytes are zero. *)
Definition minimal_mp4 (ftyp_body flags ctime mtime : list Byte.byte) : list Byte.byte :=
  bytes_z [0; 0; 0; 16] ++ bytes_of "ftyp" ++ ftyp_body
  ++ bytes_z [0; 0; 0; 116] ++ bytes_of "moov"
  ++ bytes_z [0; 0; 0; 108] ++ bytes_of "mvhd"
  ++ [Byte.x00] ++ flags ++ ctime ++ mtime ++ bytes_z [0; 0; 3; 232]
  ++ repeat Byte.x00 84.

(** A movie whose [mvhd] ends right after its creation-time field: the
    atom sizes are consistent, [mvhd] has version 0 and an 8-byte body. *)
Definition truncated_mvhd_mp4 : list Byte.byte :=
  bytes_z [0; 0; 0; 16] ++ bytes_of "ftypisom" ++ bytes_z [0; 0; 2; 0]
  ++ bytes_z [0; 0; 0; 24] ++ bytes_of "moov"
  ++ bytes_z [0; 0; 0; 16] ++ bytes_of "mvhd"
  ++ bytes_z [0; 0; 0; 0; 0x7C; 0x25; 0xB0; 0x80].

(** An APP0 segment with payload "JF". *)
Definition app0_jf : JPEGSegment :=
  {| Marker := Byte.xe0; Length := 4; Payload := [Byte.x4a; Byte.x46] |}.

(** A file of SOI and one EXIF APP1 segment (identifier and 20 zero
    bytes), with no SOF or EOI marker. *)
Definition exif_seg_20 : JPEGSegment :=
  {| Marker := Byte.xe1; Length := 28; Payload := exif_identifier ++ repeat Byte.x00 20 |}.

Definition exif_only_jpeg : list Byte.byte := [Byte.xff; Byte.xd8] ++ emit_segment exif_seg_20.

(** Leaf child atoms: a 4-byte type that is not a container and a body;
    their bytes with a 32-bit size header, and the atom the parser builds. *)
Definition leaf_bytes (c : list Byte.byte * list Byte.byte) : list Byte.byte :=
  be32_bytes (Z.of_nat (List.length (snd c)) + 8) ++ fst c ++ snd c.

Definition leaf_atom (c : list Byte.byte * list Byte.byte) : Atom :=
  mkAtom (Z.of_nat (List.length (snd c)) + 8) (fst c) (snd c) [].

Definition leaf_ok (c : list Byte.byte * list Byte.byte) : bool :=
  (List.length (fst c) =? 4)%nat && negb (isContainerAtom (fst c))
  && (Z.of_nat (List.length (snd c)) + 8 <? 2^32).

(** A [moov] atom whose body is an empty-bodied [mvhd] child followed by a
    [free] child that declares size 1 (64-bit size) and 8 more bytes. *)
Definition moov_ext_child_body : list Byte.byte :=
  bytes_z [0; 0; 0; 8] ++ bytes_of "mvhd"
  ++ bytes_z [0; 0; 0; 1] ++ bytes_of "free" ++ repeat Byte.x00 8.

Definition moov_ext_child : list Byte.byte :=
  bytes_z [0; 0; 0; 32] ++ bytes_of "moov" ++ moov_ext_child_body.

(** A complete atom: at least 8 bytes, with a 32-bit size field equal to
    its own length (so neither 0 nor 1); its body may be anything,
    containers included. *)
Definition atom_chunk_ok (c : list Byte.byte) : bool :=
  match c with
  | s0 :: s1 :: s2 :: s3 :: _ =>
      (8 <=? List.length c)%nat && (be32 s0 s1 s2 s3 =? Z.of_nat (List.length c))
  | _ => false
  end.

(** A [trak] container holding an empty [tkhd] leaf, and an empty [mvhd]
    leaf: two complete atoms. *)
Definition trak_tkhd_chunk : list Byte.byte :=
  bytes_z [0; 0; 0; 16] ++ bytes_of "trak" ++ bytes_z [0; 0; 0; 8] ++ bytes_of "tkhd".

Definition mvhd_empty_chunk : list Byte.byte := bytes_z [0; 0; 0; 8] ++ bytes_of "mvhd".

(** ** Further functions of the package *)

(** [binary.LittleEndian.Uint16] / [binary.BigEndian.Uint16] (and the
    32-bit versions) reading at an offset: how a TIFF reader decodes the
    fields the builder writes. *)
Definition be16_at (l : list Byte.byte) (i : nat) : Z :=
  be16 (nth i l Byte.x00) (nth (S i) l Byte.x00).
Definition be32_at (l : list Byte.byte) (i : nat) : Z :=
  be32 (nth i l Byte.x00) (nth (S i) l Byte.x00) (nth (S (S i)) l Byte.x00)
       (nth (S (S (S i))) l Byte.x00).

Definition get_uint16 (o : ByteOrder) (l : list Byte.byte) (i : nat) : Z :=
  match o with LittleEndian => le16_at l i | BigEndian => be16_at l i end.
Definition get_uint32 (o : ByteOrder) (l : list Byte.byte) (i : nat) : Z :=
  match o with LittleEndian => le32_at l i | BigEndian => be32_at l i end.

(** PackString: [([]byte(s), offset + uint32(len(data)))]. *)
Definition PackString (s : list Byte.byte) (offset : Z) (o : ByteOrder)
  : list Byte.byte * Z :=
  (s, (offset + Z.of_nat (List.length s)) mod 2^32).

(** PackUint16 / PackUint32: [buf := make([]byte, n); byteOrder.PutUintN(buf, value)]. *)
Definition PackUint16 (value : Z) (o : ByteOrder) : list Byte.byte := put_uint16 o value.
Definition PackUint32 (value : Z) (o : ByteOrder) : list Byte.byte := put_uint32 o value.

(** CreateEXIFSegmentWithDefaults: CreateEXIFSegment with the given
    [imageWidth] and [imageLength] (uint32) as the values of the first two
    IFD0 entries. *)
Definition CreateEXIFSegmentWithDefaults (dateTime : time) (imageWidth imageLength : Z)
  : list Byte.byte :=
  let byteOrder := LittleEndian in
  let dateTimeBytes := FormatDateTimeOriginal dateTime in
  let ifd0Entries :=
    [ {| TagID := tagImageWidth; TagType := typeLong; Count := 1; Value := imageWidth |};
      {| TagID := tagImageLength; TagType := typeLong; Count := 1; Value := imageLength |};
      {| TagID := tagOrientation; TagType := typeShort; Count := 1; Value := 1 |};
      {| TagID := tagExifIFD; TagType := typeLong; Count := 1;
         Value := exifIFDOffset mod 2^32 |} ] in
  let exifIFDEntries :=
    [ {| TagID := tagDateTimeOriginal; TagType := typeASCII;
         Count := Z.of_nat (List.length dateTimeBytes) mod 2^32;
         Value := dateTimeOffset mod 2^32 |} ] in
  let ifd0 := CreateIFD ifd0Entries 0 byteOrder in
  let exifIFD := CreateIFD exifIFDEntries 0 byteOrder in
  let tiffHeader := CreateTIFFHeader byteOrder (ifd0Offset mod 2^32) in
  exif_identifier ++ tiffHeader ++ ifd0 ++ exifIFD ++ dateTimeBytes.

(** The fields of [Config] (processor.go); updateJPEGExif reads [DryRun]
    and [OverwriteExif] ([Verbose] only selects what it prints). *)
Record Config := {
  UpdateModified : bool;
  OverwriteExif : bool;
  OverrideOriginal : bool;
  OutputDir : string;
  InputDir : string;
  Verbose : bool;
  DryRun : bool
}.

(** The errors updateJPEGExif returns after the file has been read. *)
Inductive jpeg_update_error :=
  | ErrNotValidJPEG                (* "file is not a valid JPEG" *)
  | ErrParseSegments (e : error)   (* "failed to parse JPEG segments: %v" *)
  | ErrInsertEXIF (e : error).     (* "failed to insert EXIF segment: %v" *)

(** What updateJPEGExif does with the file it has read: return without
    writing, write new contents, return an error, or panic.  Reading,
    [os.Stat] and writing are taken to succeed. *)
Inductive jpeg_update :=
  | NoWrite
  | WriteBack (newJPEG : list Byte.byte)
  | UpdateErr (e : jpeg_update_error)
  | UpdatePanic.

(** updateJPEGExif (exif.go) on the contents [data] of the file. *)
Definition updateJPEGExif (data : list Byte.byte) (dateTime : time) (config : Config)
  : jpeg_update :=
  if DryRun config then NoWrite
  else
    let valid := match data with
                 | b0 :: b1 :: _ => (bz b0 =? 0xFF) && (bz b1 =? 0xD8)
                 | _ => false
                 end in
    if negb valid then UpdateErr ErrNotValidJPEG
    else
      match ParseJPEGSegments data with
      | Err e => UpdateErr (ErrParseSegments e)
      | Panic => UpdatePanic
      | Ok segments =>
          let existingAPP1 := match FindAPP1Segment segments with
                              | Some _ => true
                              | None => false
                              end in
          if existingAPP1 && negb (OverwriteExif config) then NoWrite
          else
            let exifPayload := CreateEXIFSegment dateTime in
            match InsertEXIFSegment data exifPayload with
            | Err e => UpdateErr (ErrInsertEXIF e)
            | Panic => UpdatePanic
            | Ok newJPEG => WriteBack newJPEG
            end
      end.

(** The atoms of a tree in the order a depth-first walk meets them: the
    atom, then the walks of its children in order. *)
Fixpoint preorder (a : Atom) : list Atom :=
  match a with
  | mkAtom _ _ _ cs =>
      a :: (fix go (cs : list Atom) : list Atom :=
              match cs with
              | [] => []
              | c :: cs' => preorder c ++ go cs'
              end) cs
  end.

(** Writing [bs] into [a] at index [i] (as [put_bytes] does in bounds). *)
Definition overwrite (a : list Byte.byte) (i : nat) (bs : list Byte.byte) : list Byte.byte :=
  firstn i a ++ bs ++ skipn (i + List.length bs) a.

(** The twelve bytes CreateIFD emits for one entry. *)
Definition entry_bytes (o : ByteOrder) (e : TagEntry) : list Byte.byte :=
  CreateTagEntry (TagID e) (TagType e) (Count e) (Value e) o.

(** A configuration with every option off. *)
Definition sample_config : Config :=
  {| UpdateModified := false; OverwriteExif := false; OverrideOriginal := false;
     OutputDir := EmptyString; InputDir := EmptyString; Verbose := false; DryRun := false |}.

(** 2024-01-02 03:04:05. *)
Definition sample_time : time :=
  {| year := 2024; month := 1; day := 2; hour := 3; minute := 4; second := 5 |}.

(** The four type bytes of the atom header at position [p] of a view. *)
Definition type_at (v : view) (p : Z) : list Byte.byte :=
  [vget v (p + 4); vget v (p + 5); vget v (p + 6); vget v (p + 7)].

(** A minimal MP4 (ftyp, then moov holding a version 0 mvhd). *)
Definition sample_mp4 : list Byte.byte :=
  minimal_mp4 (bytes_of "isom" ++ bytes_z [0; 0; 2; 0]) (bytes_z [0; 0; 0])
    (bytes_z [0; 0; 0; 0]) (bytes_z [0; 0; 0; 0]).

(** * Proofs *)

(** ** C2: the specification's parseSegments example *)

(** C2. On the 22-byte input SOI, APP1 (length 0x0010, "Exif\0\0" and a
    TIFF header), SOF0, ParseJPEGSegments succeeds with exactly one
    segment: marker 0xE1, length 0x0010, the 14 payload bytes that follow
    the length field, beginning with the EXIF identifier; the SOF0 marker
    is not returned as a segment. *)
Theorem parse_segments_exif_then_sof :
  exists seg,
    ParseJPEGSegments exif_then_sof = Ok [seg]
    /\ Marker seg = Byte.xe1 /\ Length seg = 0x0010
    /\ Payload seg = firstn 14 (skipn 6 exif_then_sof)
    /\ List.length (Payload seg) = 14%nat
    /\ firstn 6 (Payload seg) = exif_identifier.
Proof.
  eexists; repeat split; vm_compute; reflexivity.
Qed.

(** ** C3: Unix / QuickTime conversion *)

Lemma int64_wrap_small x : -2^63 <= x < 2^63 -> int64_wrap x = x.
Proof.
  intros H. unfold int64_wrap. rewrite Z.mod_small; lia.
Qed.

Lemma int64_wrap_mod32 x : int64_wrap x mod 2^32 = x mod 2^32.
Proof.
  unfold int64_wrap.
  rewrite Zminus_mod, Z.mod_mod_divide by (exists (2^32); reflexivity).
  rewrite <- Zminus_mod, Z.add_simpl_r. reflexivity.
Qed.

Lemma UnixToQuickTime_mod t : UnixToQuickTime t = (t + quickTimeEpochOffset) mod 2^32.
Proof. unfold UnixToQuickTime. apply int64_wrap_mod32. Qed.

Lemma QuickTimeToUnix_uint32 q : 0 <= q < 2^32 -> QuickTimeToUnix q = q - quickTimeEpochOffset.
Proof.
  intros H. unfold QuickTimeToUnix, quickTimeEpochOffset.
  apply int64_wrap_small. lia.
Qed.

(** C3, as the claim states it, fails: the Unix time 2212122496
    (2040-02-06T06:28:16Z) is an int64 whose QuickTime value wraps to 0, and
    converting back gives -2082844800 (1904-01-01). *)
Theorem quicktime_roundtrip_fails_after_2040 :
  UnixToQuickTime 2212122496 = 0
  /\ QuickTimeToUnix (UnixToQuickTime 2212122496) = -2082844800
  /\ QuickTimeToUnix (UnixToQuickTime 2212122496) <> 2212122496.
Proof. vm_compute. repeat split; discriminate. Qed.

(** C3 (amended).  For every int64 [t], UnixToQuickTime [t] is
    [(t + 2082844800) mod 2^32]; for every uint32 [q], QuickTimeToUnix [q]
    is [q - 2082844800]; so QuickTimeToUnix (UnixToQuickTime t) = t holds
    exactly when [0 <= t + 2082844800 < 2^32], i.e. for the Unix times of
    1904-01-01 up to 2040-02-06T06:28:15Z. *)
Theorem quicktime_roundtrip t :
  -2^63 <= t < 2^63 ->
  UnixToQuickTime t = (t + quickTimeEpochOffset) mod 2^32
  /\ (forall q, 0 <= q < 2^32 -> QuickTimeToUnix q = q - quickTimeEpochOffset)
  /\ (QuickTimeToUnix (UnixToQuickTime t) = t
      <-> 0 <= t + quickTimeEpochOffset < 2^32).
Proof.
  intros Ht. split; [apply UnixToQuickTime_mod|]. split; [apply QuickTimeToUnix_uint32|].
  rewrite UnixToQuickTime_mod.
  assert (Hb : 0 <= (t + quickTimeEpochOffset) mod 2^32 < 2^32) by (apply Z.mod_pos_bound; lia).
  rewrite QuickTimeToUnix_uint32 by exact Hb.
  split.
  - intros H. assert (E : (t + quickTimeEpochOffset) mod 2^32 = t + quickTimeEpochOffset) by lia.
    rewrite <- E. exact Hb.
  - intros H. rewrite Z.mod_small by exact H. lia.
Qed.

Lemma quicktime_roundtrip_witness :
  (-2^63 <= 1737504000 < 2^63)
  /\ UnixToQuickTime 1737504000 = (1737504000 + quickTimeEpochOffset) mod 2^32
  /\ (forall q, 0 <= q < 2^32 -> QuickTimeToUnix q = q - quickTimeEpochOffset)
  /\ (QuickTimeToUnix (UnixToQuickTime 1737504000) = 1737504000
      <-> 0 <= 1737504000 + quickTimeEpochOffset < 2^32).
Proof.
  assert (H : -2^63 <= 1737504000 < 2^63) by lia.
  split; [exact H | exact (quicktime_roundtrip 1737504000 H)].
Defined.

(** ** C8: top-level errors of ParseMP4Atoms *)

(** The first atom declares a size other than 0 and 1 that exceeds the
    buffer: "size extends beyond file". *)
Lemma parse_atoms_first_size_beyond s0 s1 s2 s3 t0 t1 t2 t3 rest :
  let data := [s0; s1; s2; s3; t0; t1; t2; t3] ++ rest in
  let size := be32 s0 s1 s2 s3 in
  size <> 0 -> size <> 1 -> Z.of_nat (List.length data) < size ->
  ParseMP4Atoms data = Err (ErrAtomSizeBeyondFile size).
Proof.
  intros data size H0 H1 Hlt.
  subst data size. cbn [ParseMP4Atoms app List.length parse_atoms_loop].
  rewrite (proj2 (Z.eqb_neq _ 1) H1), (proj2 (Z.eqb_neq _ 0) H0).
  simpl List.length in Hlt.
  rewrite (proj2 (Z.ltb_lt _ _) Hlt). reflexivity.
Qed.

(** The first atom declares size 1. *)
Lemma parse_atoms_first_size_one t0 t1 t2 t3 rest :
  let data := [Byte.x00; Byte.x00; Byte.x00; Byte.x01; t0; t1; t2; t3] ++ rest in
  ParseMP4Atoms data
  = Err (if Z.of_nat (List.length data) <? 16 then ErrExtendedSizeBeyondFile
         else ErrExtendedSizeNotSupported).
Proof. intros data. subst data. simpl. destruct (_ <? 16); reflexivity. Qed.

(** C8 fails for a short buffer: an 8-byte buffer whose atom declares
    size 1 is refused with "extended size extends beyond file", a format
    error, not with the unsupported-feature error. *)
Theorem parse_atoms_size_one_short_is_format_error :
  ParseMP4Atoms (bytes_z [0; 0; 0; 1] ++ bytes_of "free") = Err ErrExtendedSizeBeyondFile
  /\ kind_of ErrExtendedSizeBeyondFile = FormatError
  /\ kind_of ErrExtendedSizeBeyondFile <> UnsupportedFeature.
Proof. split; [vm_compute; reflexivity | split; [reflexivity | discriminate]]. Qed.

(** C8 (amended).  At the top level, when the first atom declares a size
    other than 0 and 1 exceeding the buffer length, ParseMP4Atoms fails
    with a format error; when it declares size 1, it fails with the
    unsupported-feature error if the buffer holds at least 16 bytes and
    with the format error "extended size extends beyond file" otherwise.
    In both cases no atom list is returned. *)
Theorem parse_atoms_first_atom_errors s0 s1 s2 s3 t0 t1 t2 t3 rest :
  let data := [s0; s1; s2; s3; t0; t1; t2; t3] ++ rest in
  let size := be32 s0 s1 s2 s3 in
  (size <> 0 -> size <> 1 -> Z.of_nat (List.length data) < size ->
   ParseMP4Atoms data = Err (ErrAtomSizeBeyondFile size)
   /\ kind_of (ErrAtomSizeBeyondFile size) = FormatError
   /\ (forall atoms, ParseMP4Atoms data <> Ok atoms))
  /\ (size = 1 ->
   exists e, ParseMP4Atoms data = Err e
   /\ (kind_of e = UnsupportedFeature <-> (16 <= List.length data)%nat)
   /\ (kind_of e = FormatError <-> (List.length data < 16)%nat)
   /\ (forall atoms, ParseMP4Atoms data <> Ok atoms)).
Proof.
  intros data size. split.
  - intros H0 H1 Hlt.
    pose proof (parse_atoms_first_size_beyond s0 s1 s2 s3 t0 t1 t2 t3 rest H0 H1 Hlt) as E.
    fold data size in E.
    split; [exact E|]. split; [reflexivity|]. intros atoms. rewrite E. discriminate.
  - intros H1.
    assert (Hs : s0 = Byte.x00 /\ s1 = Byte.x00 /\ s2 = Byte.x00 /\ s3 = Byte.x01).
    { subst size. unfold be32, bz in H1.
      pose proof (Byte.to_N_bounded s0). pose proof (Byte.to_N_bounded s1).
      pose proof (Byte.to_N_bounded s2). pose proof (Byte.to_N_bounded s3).
      assert (E0 : Byte.to_N s0 = 0%N) by lia. assert (E1 : Byte.to_N s1 = 0%N) by lia.
      assert (E2 : Byte.to_N s2 = 0%N) by lia. assert (E3 : Byte.to_N s3 = 1%N) by lia.
      apply (proj2 (Byte.to_of_N_iff _ _)) in E0, E1, E2, E3. vm_compute in E0, E1, E2, E3.
      split; [congruence | split; [congruence | split; congruence]]. }
    destruct Hs as (-> & -> & -> & ->).
    set (e := if Z.of_nat (List.length data) <? 16 then ErrExtendedSizeBeyondFile
              else ErrExtendedSizeNotSupported).
    assert (E : ParseMP4Atoms data = Err e) by apply parse_atoms_first_size_one.
    exists e. split; [exact E|].
    split; [|split; [|intros atoms; rewrite E; discriminate]];
      subst e data; cbn [List.length app];
      (case Z.ltb_spec; intros; simpl; split; intros;
       first [reflexivity | discriminate | lia]).
Qed.

Lemma parse_atoms_first_atom_errors_witness :
  let over := bytes_z [0; 0; 0; 0x20] ++ bytes_of "ftyp" in
  let ext := bytes_z [0; 0; 0; 1] ++ bytes_of "mdat" ++ repeat Byte.x00 8 in
  (be32 (zb 0) (zb 0) (zb 0) (zb 0x20) <> 0 /\ be32 (zb 0) (zb 0) (zb 0) (zb 0x20) <> 1
   /\ Z.of_nat (List.length over) < be32 (zb 0) (zb 0) (zb 0) (zb 0x20)
   /\ ParseMP4Atoms over = Err (ErrAtomSizeBeyondFile 32))
  /\ (be32 (zb 0) (zb 0) (zb 0) (zb 1) = 1
      /\ exists e, ParseMP4Atoms ext = Err e /\ kind_of e = UnsupportedFeature).
Proof.
  cbv zeta. split.
  - assert (H0 : be32 (zb 0) (zb 0) (zb 0) (zb 0x20) <> 0) by (vm_compute; discriminate).
    assert (H1 : be32 (zb 0) (zb 0) (zb 0) (zb 0x20) <> 1) by (vm_compute; discriminate).
    assert (H2 : Z.of_nat (List.length (bytes_z [0; 0; 0; 0x20] ++ bytes_of "ftyp"))
                 < be32 (zb 0) (zb 0) (zb 0) (zb 0x20)) by (vm_compute; reflexivity).
    destruct (parse_atoms_first_atom_errors (zb 0) (zb 0) (zb 0) (zb 0x20)
                (zb 0x66) (zb 0x74) (zb 0x79) (zb 0x70) []) as [P _].
    destruct (P H0 H1 H2) as [E _].
    split; [exact H0 | split; [exact H1 | split; [exact H2 | exact E]]].
  - assert (H : be32 (zb 0) (zb 0) (zb 0) (zb 1) = 1) by (vm_compute; reflexivity).
    destruct (parse_atoms_first_atom_errors (zb 0) (zb 0) (zb 0) (zb 1)
                (zb 0x6d) (zb 0x64) (zb 0x61) (zb 0x74) (repeat Byte.x00 8)) as [_ P].
    destruct (P H) as (e & E & K & _).
    split; [exact H|]. exists e. split; [exact E | apply K; vm_compute; lia].
Defined.

(** ** C1: patching the mvhd of a minimal movie *)

(** C1. For the minimal movie [ftyp], [moov] holding a version-0 [mvhd],
    whatever its [ftyp] body, flags and original timestamps, patching with
    Unix time 1737504000 succeeds.  The input array (heap cell 0) is left as
    it was.  The result is a new array (heap cell 1) that is the same movie
    with both 32-bit time fields (mvhd body offsets 4 and 8, file offsets
    36 and 40) replaced by the big-endian QuickTime value 3820348800.  Every
    other byte is unchanged. *)
Theorem patch_minimal_mp4_v0
  (f0 f1 f2 f3 f4 f5 f6 f7 g0 g1 g2 c0 c1 c2 c3 m0 m1 m2 m3 : Byte.byte) :
  let ftyp_body := [f0; f1; f2; f3; f4; f5; f6; f7] in
  let data := minimal_mp4 ftyp_body [g0; g1; g2] [c0; c1; c2; c3] [m0; m1; m2; m3] in
  let out := minimal_mp4 ftyp_body [g0; g1; g2]
               (be32_bytes 3820348800) (be32_bytes 3820348800) in
  UnixToQuickTime 1737504000 = 3820348800
  /\ be32_bytes 3820348800 = [Byte.xe3; Byte.xb5; Byte.xe5; Byte.x80]
  /\ patchVideoMetadata (fst (literal data)) (snd (literal data)) 1737504000
     = Ok ([data; out], {| sarr := 1; soff := 0; slen := Z.of_nat (List.length data) |})
  /\ List.length out = List.length data
  /\ firstn 36 out = firstn 36 data
  /\ firstn 8 (skipn 36 out) = be32_bytes 3820348800 ++ be32_bytes 3820348800
  /\ skipn 44 out = skipn 44 data.
Proof.
  intros ftyp_body data out.
  repeat split; subst ftyp_body data out; vm_compute; reflexivity.
Qed.

(** ** C4: a panic in the mvhd patch *)

(** The truncated movie parses: [ftyp], then [moov] holding an [mvhd] with
    an 8-byte body whose version byte is 0. *)
Lemma truncated_mvhd_mp4_parses :
  exists atoms mvhd,
    ParseMP4Atoms truncated_mvhd_mp4 = Ok atoms
    /\ option_map Atom_Type (FindAtom atoms (bytes_of "moov")) = Some (bytes_of "moov")
    /\ match FindAtom atoms (bytes_of "moov") with
       | Some m => FindAtomRecursive m mvhd_type
       | None => None
       end = Some mvhd
    /\ List.length (Data mvhd) = 8%nat
    /\ bz (nth 0 (Data mvhd) Byte.x00) = 0.
Proof.
  eexists; eexists; repeat split; vm_compute; reflexivity.
Qed.

(** C4. A 40-byte movie with consistent atom sizes, whose version-0
    [mvhd] ends just after its creation-time field, makes the patch panic.
    The bounds check of updateMvhdCreationTime covers the creation-time
    field only.  The modification-time write [newData[pos+16:pos+20]]
    then slices past the capacity of [newData], so no error value comes
    back. *)
Theorem patch_truncated_mvhd_panics :
  List.length truncated_mvhd_mp4 = 40%nat
  /\ ParseMP4Atoms truncated_mvhd_mp4 <> Panic
  /\ findAtomPosition (view_of (fst (literal truncated_mvhd_mp4))
                               (snd (literal truncated_mvhd_mp4))) mvhd_type = Ok 24
  /\ patchVideoMetadata (fst (literal truncated_mvhd_mp4))
       (snd (literal truncated_mvhd_mp4)) 1737504000 = Panic.
Proof.
  split; [|split; [|split]]; vm_compute; first [reflexivity | discriminate].
Qed.

(** ** C7: layout of the EXIF payload *)

Lemma appendInt_2 x : 0 <= x < 100 -> appendInt x 2 = two_digits x.
Proof.
  intros H. unfold appendInt, two_digits.
  rewrite Z.abs_eq by lia.
  replace (x <? 0) with false by (symmetry; apply Z.ltb_ge; lia).
  replace (x <? 100) with true by (symmetry; apply Z.ltb_lt; lia).
  reflexivity.
Qed.

Lemma appendInt_4 x : 0 <= x < 10000 -> appendInt x 4 = four_digits x.
Proof.
  intros H. unfold appendInt, four_digits.
  rewrite Z.abs_eq by lia.
  replace (x <? 0) with false by (symmetry; apply Z.ltb_ge; lia).
  replace (x <? 10000) with true by (symmetry; apply Z.ltb_lt; lia).
  reflexivity.
Qed.

Lemma FormatDateTimeOriginal_digits t :
  valid_time t ->
  FormatDateTimeOriginal t =
  four_digits (year t) ++ bytes_of ":" ++ two_digits (month t) ++ bytes_of ":"
  ++ two_digits (day t) ++ bytes_of " " ++ two_digits (hour t) ++ bytes_of ":"
  ++ two_digits (minute t) ++ bytes_of ":" ++ two_digits (second t) ++ [Byte.x00].
Proof.
  intros (Hy & Hmo & Hd & Hh & Hmi & Hs). unfold FormatDateTimeOriginal.
  rewrite appendInt_4, !appendInt_2 by lia. reflexivity.
Qed.

(** C7. For every timestamp with a four-digit year and in-range month,
    day, hour, minute and second, the payload of CreateEXIFSegment begins
    with "Exif\0\0"; the TIFF header (payload offset 6) points to IFD0 at 8.
    IFD0 has 4 entries and its ExifIFD entry (tag 0x8769) points to 62 =
    8 + (2 + 12*4 + 4).  The ExifIFD there has 1 entry: DateTimeOriginal
    (tag 0x9003, ASCII) with count 20 and offset 80 = 62 + (2 + 12*1 + 4).
    At TIFF offset 80 the data area is the text "YYYY:MM:DD HH:MM:SS" and
    a zero byte, 20 bytes.  The payload is 106 bytes long, so at least 14.
    For 2025-01-22 15:30:45 the data area is "2025:01:22 15:30:45\0". *)
Theorem CreateEXIFSegment_layout t :
  valid_time t ->
  let p := CreateEXIFSegment t in
  FormatDateTimeOriginal t =
    four_digits (year t) ++ bytes_of ":" ++ two_digits (month t) ++ bytes_of ":"
    ++ two_digits (day t) ++ bytes_of " " ++ two_digits (hour t) ++ bytes_of ":"
    ++ two_digits (minute t) ++ bytes_of ":" ++ two_digits (second t) ++ [Byte.x00]
  /\ List.length (FormatDateTimeOriginal t) = 20%nat
  /\ ifd0Offset = 8 /\ exifIFDOffset = 62 /\ dateTimeOffset = 80
  /\ firstn 6 p = exif_identifier
  /\ le32_at p (6 + 4) = ifd0Offset
  /\ le16_at p (6 + 8) = 4
  /\ le16_at p (6 + 8 + 2 + 12 * 3) = tagExifIFD
  /\ le32_at p (6 + 8 + 2 + 12 * 3 + 8) = exifIFDOffset
  /\ le16_at p (6 + 62) = 1
  /\ le16_at p (6 + 62 + 2) = tagDateTimeOriginal
  /\ le16_at p (6 + 62 + 2 + 2) = typeASCII
  /\ le32_at p (6 + 62 + 2 + 4) = 20
  /\ le32_at p (6 + 62 + 2 + 8) = dateTimeOffset
  /\ skipn (6 + 80) p = FormatDateTimeOriginal t
  /\ List.length p = 106%nat
  /\ (14 <= List.length p)%nat
  /\ skipn (6 + 80) (CreateEXIFSegment
       {| year := 2025; month := 1; day := 22; hour := 15; minute := 30; second := 45 |})
     = bytes_of "2025:01:22 15:30:45" ++ [Byte.x00].
Proof.
  intros H p.
  pose proof (FormatDateTimeOriginal_digits t H) as Hf.
  assert (L : List.length (FormatDateTimeOriginal t) = 20%nat) by (rewrite Hf; reflexivity).
  assert (Lp : List.length p = 106%nat).
  { unfold p, CreateEXIFSegment. cbv zeta. rewrite !length_app, L. reflexivity. }
  split; [exact Hf|]. split; [exact L|].
  unfold p in *. unfold CreateEXIFSegment in *. cbv zeta in *. rewrite L in *.
  generalize dependent (FormatDateTimeOriginal t). intros Fm _ _ Lp.
  repeat split; try (vm_compute; reflexivity); lia.
Qed.

Lemma CreateEXIFSegment_layout_witness :
  valid_time {| year := 2025; month := 1; day := 22; hour := 15; minute := 30; second := 45 |}
  /\ skipn (6 + 80) (CreateEXIFSegment
       {| year := 2025; month := 1; day := 22; hour := 15; minute := 30; second := 45 |})
     = FormatDateTimeOriginal
         {| year := 2025; month := 1; day := 22; hour := 15; minute := 30; second := 45 |}.
Proof.
  assert (V : valid_time {| year := 2025; month := 1; day := 22; hour := 15;
                            minute := 30; second := 45 |})
    by (unfold valid_time; simpl; lia).
  split; [exact V|].
  apply (CreateEXIFSegment_layout _ V).
Defined.

(** ** Byte lemmas *)

Lemma bz_range b : 0 <= bz b < 256.
Proof. unfold bz. pose proof (Byte.to_N_bounded b). lia. Qed.

Lemma bz_zb z : bz (zb z) = z mod 256.
Proof.
  unfold zb, bz.
  pose proof (Z.mod_pos_bound z 256 ltac:(lia)) as Hb.
  destruct (Byte.of_N (Z.to_N (z mod 256))) eqn:E.
  - apply Byte.to_of_N in E. rewrite E. apply Z2N.id. lia.
  - exfalso. apply Byte.of_N_None_iff in E. lia.
Qed.

Lemma zb_bz b : zb (bz b) = b.
Proof.
  unfold zb. rewrite Z.mod_small by apply bz_range.
  unfold bz. rewrite N2Z.id, Byte.of_to_N. reflexivity.
Qed.

Lemma be16_bytes_roundtrip v : 0 <= v < 65536 -> be16 (zb (Z.shiftr v 8)) (zb v) = v.
Proof.
  intros H. unfold be16. rewrite !bz_zb, Z.shiftr_div_pow2 by lia.
  change (2 ^ 8) with 256.
  assert (0 <= v / 256 < 256) by (split; [apply Z.div_pos | apply Z.div_lt_upper_bound]; lia).
  rewrite (Z.mod_small (v / 256)) by lia.
  pose proof (Z.div_mod v 256 ltac:(lia)). lia.
Qed.

Lemma firstn_skipn_app {A} (l x : list A) :
  firstn (List.length l) (l ++ x) = l /\ skipn (List.length l) (l ++ x) = x.
Proof. induction l as [|a l IH]; simpl; [auto | destruct IH as [-> ->]; auto]. Qed.

(** ** JPEG parsing of emitted segments *)

Lemma skip_to_marker_at b0 m tl :
  bz b0 = 0xFF -> bz m <> 0xFF -> bz m <> 0 ->
  skip_to_marker (b0 :: m :: tl) = b0 :: m :: tl.
Proof.
  intros H0 H1 H2. simpl. rewrite H0.
  rewrite (proj2 (Z.eqb_neq _ _) H1), (proj2 (Z.eqb_neq _ _) H2). reflexivity.
Qed.

Lemma parse_stops_at b0 m tl :
  bz b0 = 0xFF -> (is_sof m || (bz m =? markerEOI)) = true ->
  forall f, parse_segments_loop f (b0 :: m :: tl) = Ok [].
Proof.
  intros H0 Hm [|f]; [reflexivity|].
  assert (Hr : 0xC0 <= bz m <= 0xC3 \/ bz m = 0xD9).
  { unfold is_sof, markerSOF0, markerSOF3, markerEOI in Hm.
    apply orb_true_iff in Hm as [Hm|Hm];
      [left; apply andb_true_iff in Hm as [A B]; apply Z.leb_le in A, B; lia
      | right; apply Z.eqb_eq in Hm; exact Hm]. }
  cbn [parse_segments_loop].
  rewrite skip_to_marker_at by lia.
  destruct (bz m =? markerEOI) eqn:E; [reflexivity|].
  rewrite orb_false_r in Hm. rewrite Hm. reflexivity.
Qed.

Lemma segment_ok_facts s :
  segment_ok s = true ->
  Length s = Z.of_nat (List.length (Payload s)) + 2 /\ Length s < 65536
  /\ bz (Marker s) <> 0xFF /\ bz (Marker s) <> 0 /\ bz (Marker s) <> markerEOI
  /\ is_sof (Marker s) = false.
Proof.
  unfold segment_ok, marker_ok. intros H.
  repeat rewrite andb_true_iff in H. repeat rewrite negb_true_iff in H.
  destruct H as [[HL HL'] [[[[H1 H2] H3] H4] H5]].
  apply Z.eqb_eq in HL. apply Z.ltb_lt in HL'. apply Z.eqb_neq in H1, H2, H4.
  repeat split; assumption.
Qed.

Lemma emitted_length S :
  (4 * List.length S <= List.length (List.concat (map emit_segment S)))%nat.
Proof.
  induction S as [|s S IH]; [simpl; lia|].
  assert (4 <= List.length (emit_segment s))%nat
    by (unfold emit_segment, be16_bytes; cbn [List.length app]; lia).
  cbn [map List.concat List.length]. rewrite length_app. lia.
Qed.

Lemma parse_emitted S : forall f rest,
  forallb segment_ok S = true -> (List.length S < f)%nat ->
  (forall f', parse_segments_loop f' rest = Ok []) ->
  parse_segments_loop f (List.concat (map emit_segment S) ++ rest) = Ok S.
Proof.
  induction S as [|s S IH]; intros f rest Hok Hf Hrest.
  - apply Hrest.
  - destruct f as [|f]; [simpl in Hf; lia|].
    cbn [forallb] in Hok. apply andb_true_iff in Hok as [Hs Hok].
    destruct (segment_ok_facts s Hs) as (HL & HL' & H1 & H2 & H3 & H4).
    cbn [map List.concat]. rewrite <- app_assoc.
    set (X := List.concat (map emit_segment S) ++ rest).
    unfold emit_segment at 1. unfold be16_bytes. cbn [app].
    cbn [parse_segments_loop].
    rewrite skip_to_marker_at by (try reflexivity; assumption).
    rewrite (proj2 (Z.eqb_neq _ _) H3), H4.
    rewrite be16_bytes_roundtrip by lia.
    replace (Length s <? 2) with false by (symmetry; apply Z.ltb_ge; lia).
    replace (Z.to_nat (Length s - 2)) with (List.length (Payload s)) by lia.
    rewrite length_app.
    replace (Z.of_nat (List.length (Payload s) + List.length X) <? Length s - 2)
      with false by (symmetry; apply Z.ltb_ge; lia).
    destruct (firstn_skipn_app (Payload s) X) as [-> ->].
    subst X. rewrite (IH f rest Hok) by (simpl in Hf; lia || assumption).
    destruct s; reflexivity.
Qed.

(** ** C6: parsing a reassembled file *)

(** C6 (counterexample). Image data that begins with a segment marker
    other than SOF and EOI is read back as a segment.  For no segments and
    image data [FF E2 00 02], the parse returns an APP2 segment with an
    empty payload instead of the empty list. *)
Theorem parse_reassemble_extra_segment :
  ParseJPEGSegments (ReassembleJPEG [] (bytes_z [0xFF; 0xE2; 0x00; 0x02]))
  = Ok [{| Marker := Byte.xe2; Length := 2; Payload := [] |}].
Proof. vm_compute. reflexivity. Qed.

(** C6 (amended). Take segments whose length fields match their payloads
    and whose markers are not 0xFF, 0x00, SOI, EOI or SOF0-SOF3.  Take image
    data that is empty or begins with an SOF or EOI marker, as
    InsertEXIFSegment cuts it.  Then parsing the reassembled file gives back
    exactly the segments.  The reassembled file is SOI, the emitted
    segments, the image data byte for byte, and an EOI marker when the image
    data does not already end in one. *)
Theorem parse_reassemble S D :
  forallb segment_ok S = true -> image_start_ok D = true ->
  ParseJPEGSegments (ReassembleJPEG S D) = Ok S
  /\ exists tail,
       ReassembleJPEG S D = [Byte.xff; Byte.xd8] ++ List.concat (map emit_segment S) ++ D ++ tail
       /\ (tail = [] \/ tail = eoi_bytes)
       /\ (tail = [] <-> (List.length D <> 0%nat /\ has_eoi_suffix D = true)).
Proof.
  intros HS HD.
  set (tail := if (List.length D =? 0)%nat || negb (has_eoi_suffix D) then eoi_bytes else []).
  assert (Hr : ReassembleJPEG S D
               = [Byte.xff; Byte.xd8] ++ List.concat (map emit_segment S) ++ D ++ tail)
    by reflexivity.
  split.
  - rewrite Hr. unfold ParseJPEGSegments. cbn [app].
    change ((bz Byte.xff =? 0xFF) && (bz Byte.xd8 =? markerSOI)) with true. cbv iota beta.
    apply parse_emitted; [exact HS| |].
    + pose proof (emitted_length S). cbn [List.length]. rewrite length_app. lia.
    + destruct D as [|b0 [|m tl]]; try discriminate HD.
      * subst tail. cbn. apply parse_stops_at; reflexivity.
      * cbn [image_start_ok] in HD. apply andb_true_iff in HD as [H0 Hm].
        apply Z.eqb_eq in H0. cbn [app]. apply parse_stops_at; assumption.
  - exists tail. split; [exact Hr|]. subst tail.
    destruct (List.length D =? 0)%nat eqn:E0; destruct (has_eoi_suffix D) eqn:E1; cbn;
      apply Nat.eqb_eq in E0 || apply Nat.eqb_neq in E0;
      (split; [auto|]); split; intros; try discriminate; try tauto; exfalso; intuition congruence.
Qed.

Lemma parse_reassemble_witness :
  forallb segment_ok [{| Marker := Byte.xe0; Length := 4; Payload := [Byte.x4a; Byte.x46] |}] = true
  /\ image_start_ok [Byte.xff; Byte.xc0; Byte.x00] = true
  /\ ParseJPEGSegments
       (ReassembleJPEG [{| Marker := Byte.xe0; Length := 4; Payload := [Byte.x4a; Byte.x46] |}]
                       [Byte.xff; Byte.xc0; Byte.x00])
     = Ok [{| Marker := Byte.xe0; Length := 4; Payload := [Byte.x4a; Byte.x46] |}].
Proof.
  assert (H1 : forallb segment_ok
                 [{| Marker := Byte.xe0; Length := 4; Payload := [Byte.x4a; Byte.x46] |}] = true)
    by reflexivity.
  assert (H2 : image_start_ok [Byte.xff; Byte.xc0; Byte.x00] = true) by reflexivity.
  split; [exact H1|]. split; [exact H2|].
  exact (proj1 (parse_reassemble _ _ H1 H2)).
Defined.

(** ** InsertEXIFSegment on a well-formed file *)

Lemma parse_file S rest :
  forallb segment_ok S = true -> (forall f, parse_segments_loop f rest = Ok []) ->
  ParseJPEGSegments ([Byte.xff; Byte.xd8] ++ List.concat (map emit_segment S) ++ rest) = Ok S.
Proof.
  intros HS Hrest. unfold ParseJPEGSegments. cbn [app].
  change ((bz Byte.xff =? 0xFF) && (bz Byte.xd8 =? markerSOI)) with true. cbv iota beta.
  apply parse_emitted; [exact HS| |exact Hrest].
  pose proof (emitted_length S). cbn [List.length]. rewrite length_app. lia.
Qed.

Lemma image_start_stops D :
  image_start_ok D = true -> D <> [] -> forall f, parse_segments_loop f D = Ok [].
Proof.
  intros HD Hne. destruct D as [|b0 [|m tl]]; try discriminate HD; [congruence|].
  cbn [image_start_ok] in HD. apply andb_true_iff in HD as [H0 Hm].
  apply Z.eqb_eq in H0. apply parse_stops_at; assumption.
Qed.

Lemma image_start_app D x :
  image_start_ok D = true -> D <> [] -> image_start_ok (D ++ x) = true /\ D ++ x <> [].
Proof.
  intros HD Hne. destruct D as [|b0 [|m tl]]; try discriminate HD; [congruence|].
  split; [exact HD | discriminate].
Qed.

Lemma skipn_app_exact {A} (l x : list A) n : n = List.length l -> skipn n (l ++ x) = x.
Proof. intros ->. apply firstn_skipn_app. Qed.

Lemma rescan_emitted S : forall fuel pos D,
  forallb segment_ok S = true -> (List.length S < fuel)%nat ->
  image_start_ok D = true -> D <> [] ->
  rescan_loop fuel pos (List.concat (map emit_segment S) ++ D)
  = Some (pos + Z.of_nat (List.length (List.concat (map emit_segment S)))).
Proof.
  induction S as [|s S IH]; intros fuel pos D Hok Hf HD Hne.
  - destruct fuel as [|f]; [simpl in Hf; lia|].
    destruct D as [|b0 [|m tl]]; try discriminate HD; [congruence|].
    cbn [image_start_ok] in HD. apply andb_true_iff in HD as [H0 Hm].
    apply Z.eqb_eq in H0. cbn [rescan_loop List.concat map app]. rewrite H0.
    cbn [List.length Z.of_nat]. rewrite Z.add_0_r.
    destruct (is_sof m); [reflexivity|]. cbn [orb] in Hm. rewrite Hm. reflexivity.
  - destruct fuel as [|f]; [simpl in Hf; lia|].
    cbn [forallb] in Hok. apply andb_true_iff in Hok as [Hs Hok].
    destruct (segment_ok_facts s Hs) as (HL & HL' & H1 & H2 & H3 & H4).
    cbn [map List.concat]. rewrite <- app_assoc.
    set (X := List.concat (map emit_segment S)).
    unfold emit_segment at 1 2. unfold be16_bytes. cbn [app rescan_loop].
    change (bz Byte.xff =? 0xFF) with true. cbn [negb].
    rewrite H4, (proj2 (Z.eqb_neq _ _) H3).
    rewrite be16_bytes_roundtrip by lia.
    rewrite (skipn_app_exact (Byte.xff :: Marker s :: zb (Z.shiftr (Length s) 8)
                                :: zb (Length s) :: Payload s) (X ++ D))
      by (cbn [List.length]; lia).
    subst X. rewrite (IH f) by (simpl in Hf; lia || assumption).
    f_equal. cbn [List.length app]. rewrite length_app. lia.
Qed.

Lemma find_app1_from_index k S i s :
  find_app1_from k S = Some (i, s) -> (k <= i)%nat /\ is_exif_segment s = true.
Proof.
  revert k. induction S as [|a S IH]; intros k H; [discriminate|].
  cbn [find_app1_from] in H. destruct (is_exif_segment a) eqn:E.
  - injection H as <- <-. auto.
  - destruct (IH _ H). split; [lia | assumption].
Qed.

Lemma find_app1_from_set k S i s v :
  find_app1_from k S = Some (i, s) -> is_exif_segment v = true ->
  find_app1_from k (list_set S (i - k) v) = Some (i, v).
Proof.
  revert k. induction S as [|a S IH]; intros k H Hv; [discriminate|].
  cbn [find_app1_from] in H. destruct (is_exif_segment a) eqn:E.
  - injection H as <- <-. rewrite Nat.sub_diag. cbn. rewrite Hv. reflexivity.
  - destruct (find_app1_from_index _ _ _ _ H) as [Hk _].
    replace (i - k)%nat with (Datatypes.S (i - Datatypes.S k)) by lia.
    cbn [list_set find_app1_from]. rewrite E. apply IH; assumption.
Qed.

Lemma count_exif_set k S i s v :
  find_app1_from k S = Some (i, s) -> is_exif_segment v = true ->
  count_exif (list_set S (i - k) v) = count_exif S.
Proof.
  unfold count_exif. revert k.
  induction S as [|a S IH]; intros k H Hv; [discriminate|].
  cbn [find_app1_from] in H. destruct (is_exif_segment a) eqn:E.
  - injection H as <- <-. rewrite Nat.sub_diag. cbn. rewrite Hv, E. reflexivity.
  - destruct (find_app1_from_index _ _ _ _ H) as [Hk _].
    replace (i - k)%nat with (Datatypes.S (i - Datatypes.S k)) by lia.
    cbn [list_set filter]. rewrite E. apply (IH (Datatypes.S k)); assumption.
Qed.

Lemma count_exif_none k S : find_app1_from k S = None -> count_exif S = 0%nat.
Proof.
  unfold count_exif. revert k.
  induction S as [|a S IH]; intros k H; [reflexivity|].
  cbn [find_app1_from] in H. cbn [filter]. destruct (is_exif_segment a); [discriminate|].
  exact (IH _ H).
Qed.

Lemma find_app1_from_some_count k S i s :
  find_app1_from k S = Some (i, s) -> (1 <= count_exif S)%nat.
Proof.
  unfold count_exif. revert k.
  induction S as [|a S IH]; intros k H; [discriminate|].
  cbn [find_app1_from] in H. cbn [filter]. destruct (is_exif_segment a).
  - cbn [List.length]. lia.
  - exact (IH _ H).
Qed.

Lemma list_set_idem {A} (l : list A) i v : list_set (list_set l i v) i v = list_set l i v.
Proof.
  revert i. induction l as [|a l IH]; intros [|i]; cbn; try reflexivity.
  rewrite IH. reflexivity.
Qed.

Lemma forallb_list_set {A} (P : A -> bool) l i v :
  forallb P l = true -> P v = true -> forallb P (list_set l i v) = true.
Proof.
  revert i. induction l as [|a l IH]; intros [|i] Hl Hv; cbn in *; try reflexivity;
    apply andb_true_iff in Hl as [Ha Hl]; rewrite ?Hv, ?Ha; cbn; auto.
Qed.

Lemma has_eoi_suffix_app x : has_eoi_suffix (x ++ eoi_bytes) = true.
Proof.
  unfold has_eoi_suffix. rewrite length_app. cbn [List.length eoi_bytes].
  replace (List.length x + 2 - 2)%nat with (List.length x) by lia.
  rewrite skipn_app_exact by reflexivity.
  replace (2 <=? List.length x + 2)%nat with true by (symmetry; apply Nat.leb_le; lia).
  reflexivity.
Qed.

Lemma new_app1_ok p : Z.of_nat (List.length p) <= 65533 -> segment_ok (new_app1 p) = true.
Proof.
  intros Hp. unfold segment_ok, new_app1. cbn [Length Payload Marker].
  rewrite Z.mod_small by lia.
  rewrite Z.eqb_refl. replace (Z.of_nat (List.length p) + 2 <? 65536) with true
    by (symmetry; apply Z.ltb_lt; lia).
  reflexivity.
Qed.

Lemma replace_or_prepend_ok S v :
  forallb segment_ok S = true -> segment_ok v = true ->
  forallb segment_ok (replace_or_prepend S v) = true.
Proof.
  intros HS Hv. unfold replace_or_prepend.
  destruct (FindAPP1Segment S) as [[i s]|].
  - apply forallb_list_set; assumption.
  - cbn. rewrite Hv. exact HS.
Qed.

(** One call on SOI, well-formed segments and image data that starts at
    an SOF or EOI marker: the rescan stops at that marker. *)
Lemma insert_on_wellformed S D p :
  forallb segment_ok S = true -> image_start_ok D = true -> D <> [] ->
  InsertEXIFSegment ([Byte.xff; Byte.xd8] ++ List.concat (map emit_segment S) ++ D) p
  = Ok (ReassembleJPEG (replace_or_prepend S (new_app1 p)) D).
Proof.
  intros HS HD Hne. unfold InsertEXIFSegment.
  rewrite parse_file by (assumption || exact (image_start_stops D HD Hne)).
  cbn [wrap_err bind].
  unfold segments_end.
  change (skipn 2 ([Byte.xff; Byte.xd8] ++ List.concat (map emit_segment S) ++ D))
    with (List.concat (map emit_segment S) ++ D).
  rewrite rescan_emitted by
    (try assumption; pose proof (emitted_length S); cbn [List.length app];
     rewrite length_app; lia).
  rewrite app_assoc, skipn_app_exact by (rewrite length_app; cbn [List.length]; lia).
  reflexivity.
Qed.

(** ** C5: inserting the same EXIF payload twice *)

(** C5 (counterexample). The operation only replaces an APP1 segment whose
    payload starts with "Exif\0\0".  Inserting the payload "A" twice into
    SOI, APP0, EOI prepends it twice.  The second output differs from the
    first and holds two copies of the APP1 segment, and neither is an EXIF
    segment. *)
Theorem insert_non_exif_payload_twice :
  let data := [Byte.xff; Byte.xd8] ++ emit_segment app0_jf ++ eoi_bytes in
  let p := [Byte.x41] in
  exists out1 out2,
    InsertEXIFSegment data p = Ok out1
    /\ InsertEXIFSegment out1 p = Ok out2
    /\ out2 <> out1
    /\ ParseJPEGSegments out2 = Ok [new_app1 p; new_app1 p; app0_jf]
    /\ count_exif [new_app1 p; new_app1 p; app0_jf] = 0%nat.
Proof.
  intros data p. do 2 eexists.
  split; [vm_compute; reflexivity|].
  split; [vm_compute; reflexivity|].
  split; [vm_compute; discriminate|].
  split; vm_compute; reflexivity.
Qed.

(** C5 (amended). Take a file made of SOI, well-formed segments (as in
    C6) and image data that starts at an SOF or EOI marker.  Take a payload
    that starts with "Exif\0\0" and is at most 65533 bytes long.  Then
    inserting it succeeds, and inserting it again into the output returns
    the same output.  The output parses to the input segments with the
    first EXIF APP1 segment replaced in place by the injected one, or with
    the injected one prepended when there was none.  The first EXIF
    segment of the output is the injected one, at that position.  The
    number of EXIF segments becomes max(1, n): later EXIF segments of the
    input are kept. *)
Theorem insert_exif_idempotent S D p :
  forallb segment_ok S = true -> image_start_ok D = true -> D <> [] ->
  is_exif_segment (new_app1 p) = true -> Z.of_nat (List.length p) <= 65533 ->
  let data := [Byte.xff; Byte.xd8] ++ List.concat (map emit_segment S) ++ D in
  let S1 := replace_or_prepend S (new_app1 p) in
  exists out1,
    InsertEXIFSegment data p = Ok out1
    /\ InsertEXIFSegment out1 p = Ok out1
    /\ ParseJPEGSegments out1 = Ok S1
    /\ match FindAPP1Segment S with
       | Some (i, _) => S1 = list_set S i (new_app1 p)
                        /\ FindAPP1Segment S1 = Some (i, new_app1 p)
       | None => S1 = new_app1 p :: S /\ FindAPP1Segment S1 = Some (0%nat, new_app1 p)
       end
    /\ count_exif S1 = Nat.max 1 (count_exif S).
Proof.
  intros HS HD Hne Hx Hp data S1.
  assert (HS1 : forallb segment_ok S1 = true)
    by (apply replace_or_prepend_ok; [exact HS | apply new_app1_ok, Hp]).
  assert (Hm : match FindAPP1Segment S with
               | Some (i, _) => S1 = list_set S i (new_app1 p)
                                /\ FindAPP1Segment S1 = Some (i, new_app1 p)
               | None => S1 = new_app1 p :: S
                         /\ FindAPP1Segment S1 = Some (0%nat, new_app1 p)
               end).
  { unfold S1, replace_or_prepend, FindAPP1Segment.
    destruct (find_app1_from 0 S) as [[i s]|] eqn:E; split; try reflexivity.
    - apply (find_app1_from_set _ _ _ _ (new_app1 p)) in E; [|exact Hx].
      rewrite Nat.sub_0_r in E. exact E.
    - cbn. rewrite Hx. reflexivity. }
  assert (Hidem : replace_or_prepend S1 (new_app1 p) = S1).
  { unfold replace_or_prepend at 1.
    destruct (FindAPP1Segment S) as [[i s]|]; destruct Hm as [Hs1 Hf1]; rewrite Hf1.
    - rewrite Hs1, list_set_idem. reflexivity.
    - rewrite Hs1. reflexivity. }
  set (tail := if (List.length D =? 0)%nat || negb (has_eoi_suffix D) then eoi_bytes else []).
  assert (Hr : ReassembleJPEG S1 D
               = [Byte.xff; Byte.xd8] ++ List.concat (map emit_segment S1) ++ D ++ tail)
    by reflexivity.
  destruct (image_start_app D tail HD Hne) as [HDt HDtne].
  exists (ReassembleJPEG S1 D).
  split; [apply insert_on_wellformed; assumption|].
  split.
  { rewrite Hr at 1. rewrite insert_on_wellformed by assumption. rewrite Hidem.
    assert (Ht : ((List.length (D ++ tail) =? 0)%nat || negb (has_eoi_suffix (D ++ tail)))
                 = false).
    { unfold tail.
      destruct ((List.length D =? 0)%nat || negb (has_eoi_suffix D)) eqn:C.
      - rewrite has_eoi_suffix_app, length_app. cbn [List.length eoi_bytes negb].
        rewrite orb_false_r. apply Nat.eqb_neq. lia.
      - rewrite app_nil_r. exact C. }
    unfold ReassembleJPEG at 1. rewrite Ht, app_nil_r. rewrite Hr. reflexivity. }
  split; [rewrite Hr; apply parse_file; [exact HS1 | apply image_start_stops; assumption]|].
  split; [exact Hm|].
  unfold S1, replace_or_prepend, FindAPP1Segment.
  destruct (find_app1_from 0 S) as [[i s]|] eqn:E.
  - pose proof (find_app1_from_some_count _ _ _ _ E).
    replace i with (i - 0)%nat at 1 by lia.
    rewrite (count_exif_set _ _ _ _ _ E Hx). lia.
  - pose proof (count_exif_none _ _ E) as H0. unfold count_exif in *.
    cbn [filter]. rewrite Hx. cbn [List.length]. rewrite H0. reflexivity.
Qed.

Lemma insert_exif_idempotent_witness :
  forallb segment_ok [app0_jf] = true /\ image_start_ok eoi_bytes = true /\ eoi_bytes <> []
  /\ is_exif_segment (new_app1 exif_identifier) = true
  /\ Z.of_nat (List.length exif_identifier) <= 65533
  /\ exists out1,
       InsertEXIFSegment ([Byte.xff; Byte.xd8] ++ List.concat (map emit_segment [app0_jf])
                          ++ eoi_bytes) exif_identifier = Ok out1
       /\ InsertEXIFSegment out1 exif_identifier = Ok out1.
Proof.
  assert (H1 : forallb segment_ok [app0_jf] = true) by reflexivity.
  assert (H2 : image_start_ok eoi_bytes = true) by reflexivity.
  assert (H3 : eoi_bytes <> []) by discriminate.
  assert (H4 : is_exif_segment (new_app1 exif_identifier) = true) by reflexivity.
  assert (H5 : Z.of_nat (List.length exif_identifier) <= 65533) by (vm_compute; discriminate).
  do 5 (split; [assumption|]).
  destruct (insert_exif_idempotent [app0_jf] eoi_bytes exif_identifier H1 H2 H3 H4 H5)
    as (out1 & A & B & _).
  exists out1. split; assumption.
Defined.

(** ** The rescan fallback of InsertEXIFSegment *)

Lemma skip_to_marker_split r b0 m tl :
  skip_to_marker r = b0 :: m :: tl -> bz b0 = 0xFF /\ exists a, r = a ++ b0 :: m :: tl.
Proof.
  induction r as [|x0 r IH]; [discriminate|].
  destruct r as [|x1 r]; [discriminate|].
  intros H. cbn [skip_to_marker] in H.
  destruct ((bz x0 =? 0xFF) && negb (bz x1 =? 0xFF) && negb (bz x1 =? 0x00)) eqn:C.
  - injection H as <- <- <-. repeat rewrite andb_true_iff in C.
    destruct C as [[C _] _]. apply Z.eqb_eq in C. split; [exact C|]. exists []. reflexivity.
  - destruct (IH H) as [Hb [a Ha]]. split; [exact Hb|].
    exists (x0 :: a). rewrite Ha. reflexivity.
Qed.

Lemma be16_bytes_be16 l0 l1 : be16_bytes (be16 l0 l1) = [l0; l1].
Proof.
  unfold be16_bytes, be16. pose proof (bz_range l0). pose proof (bz_range l1).
  rewrite Z.shiftr_div_pow2 by lia. change (2 ^ 8) with 256.
  rewrite Z.div_add_l, Z.div_small, Z.add_0_r, zb_bz by lia.
  unfold zb. rewrite Z.add_comm, Z.mod_add, Z.mod_small by lia.
  unfold bz. rewrite N2Z.id, Byte.of_to_N. reflexivity.
Qed.

Lemma ff_byte b : bz b = 0xFF -> b = Byte.xff.
Proof. intros H. rewrite <- (zb_bz b), H. reflexivity. Qed.

(** Every parsed segment is an infix of the bytes it was parsed from. *)
Lemma parsed_infix f : forall r S,
  parse_segments_loop f r = Ok S ->
  forall s, In s S -> exists a b, r = a ++ emit_segment s ++ b.
Proof.
  induction f as [|f IH]; intros r S H s Hs; [injection H as <-; destruct Hs|].
  cbn [parse_segments_loop] in H.
  destruct r as [|x r']; [injection H as <-; destruct Hs|].
  destruct (skip_to_marker (x :: r')) as [|b0 [|m tl]] eqn:Sk;
    try (injection H as <-; destruct Hs).
  destruct (skip_to_marker_split _ _ _ _ Sk) as [Hb [a0 Ha0]].
  destruct (bz m =? markerEOI); [injection H as <-; destruct Hs|].
  destruct (is_sof m); [injection H as <-; destruct Hs|].
  destruct tl as [|l0 [|l1 tl']]; try discriminate H.
  destruct (be16 l0 l1 <? 2) eqn:L2; [discriminate H|].
  destruct (Z.of_nat (List.length tl') <? be16 l0 l1 - 2) eqn:L3; [discriminate H|].
  apply Z.ltb_ge in L2, L3.
  destruct (parse_segments_loop f (skipn (Z.to_nat (be16 l0 l1 - 2)) tl')) as [S'| |] eqn:E;
    cbn [bind] in H; try discriminate H.
  injection H as <-.
  rewrite (ff_byte _ Hb) in Ha0.
  destruct Hs as [<- | Hs].
  - exists a0, (skipn (Z.to_nat (be16 l0 l1 - 2)) tl').
    rewrite Ha0. unfold emit_segment. cbn [Marker Length Payload].
    rewrite be16_bytes_be16. cbn [app]. rewrite firstn_skipn. reflexivity.
  - destruct (IH _ _ E s Hs) as [a [b Hab]].
    exists (a0 ++ [Byte.xff; m; l0; l1] ++ firstn (Z.to_nat (be16 l0 l1 - 2)) tl' ++ a), b.
    rewrite Ha0. rewrite <- (firstn_skipn (Z.to_nat (be16 l0 l1 - 2)) tl') at 1.
    rewrite Hab. rewrite <- !app_assoc. reflexivity.
Qed.

Lemma emitted_infix S s :
  In s S -> exists a b, List.concat (map emit_segment S) = a ++ emit_segment s ++ b.
Proof.
  induction S as [|s0 S IH]; intros Hs; [destruct Hs|].
  cbn [map List.concat]. destruct Hs as [<- | Hs].
  - exists [], (List.concat (map emit_segment S)). reflexivity.
  - destruct (IH Hs) as [a [b ->]]. exists (emit_segment s0 ++ a), b.
    rewrite <- app_assoc. reflexivity.
Qed.

Lemma find_app1_from_nth k S i s :
  find_app1_from k S = Some (i, s) -> nth_error S (i - k) = Some s.
Proof.
  revert k. induction S as [|a S IH]; intros k H; [discriminate|].
  cbn [find_app1_from] in H. destruct (is_exif_segment a).
  - injection H as <- <-. rewrite Nat.sub_diag. reflexivity.
  - destruct (find_app1_from_index _ _ _ _ H) as [Hk _].
    replace (i - k)%nat with (Datatypes.S (i - Datatypes.S k)) by lia.
    exact (IH _ H).
Qed.

Lemma not_in_list_set {A} (l : list A) j v s :
  In s l -> ~ In s (list_set l j v) -> nth_error l j = Some s.
Proof.
  revert j. induction l as [|a l IH]; intros j Hs Hn; [destruct Hs|].
  destruct j as [|j]; cbn [list_set nth_error] in *.
  - destruct Hs as [<- | Hs]; [reflexivity|]. exfalso. apply Hn. right. exact Hs.
  - destruct Hs as [<- | Hs]; [exfalso; apply Hn; left; reflexivity|].
    apply IH; [exact Hs|]. intros H. apply Hn. right. exact H.
Qed.

(** ** C10: image data when the rescan finds no SOF or EOI *)

(** C10 (counterexample). SOI and one 30-byte EXIF APP1 segment, no SOF
    or EOI.  The rescan leaves [segmentsEnd] at 2 and the insert succeeds.
    The parsed EXIF segment is replaced in the new list, so its bytes occur
    only once in the 44-byte output, inside the copied image data. *)
Theorem rescan_fallback_replaced_segment_once :
  ParseJPEGSegments exif_only_jpeg = Ok [exif_seg_20]
  /\ rescan_loop (List.length exif_only_jpeg) 2 (skipn 2 exif_only_jpeg) = None
  /\ segments_end exif_only_jpeg = 2
  /\ exists out,
       InsertEXIFSegment exif_only_jpeg exif_identifier = Ok out
       /\ List.length out = 44%nat
       /\ occurrences (emit_segment exif_seg_20) out = 1%nat.
Proof.
  split; [vm_compute; reflexivity|].
  split; [vm_compute; reflexivity|].
  split; [vm_compute; reflexivity|].
  eexists. split; [vm_compute; reflexivity|].
  split; vm_compute; reflexivity.
Qed.

(** C10 (amended). Suppose the parse succeeds and the rescan meets no SOF
    or EOI marker.  Then [segmentsEnd] stays 2 and the insert succeeds.
    The image data it copies is everything after SOI, and every parsed
    segment is an infix of it.  So every parsed segment kept in the new
    segment list occurs twice in the output: once emitted from the list
    and once in the copied image data.  The only parsed segment the new
    list can lose is the EXIF APP1 segment that was replaced. *)
Theorem insert_rescan_fallback data p S :
  ParseJPEGSegments data = Ok S ->
  rescan_loop (List.length data) 2 (skipn 2 data) = None ->
  let S1 := replace_or_prepend S (new_app1 p) in
  segments_end data = 2
  /\ exists out,
       InsertEXIFSegment data p = Ok out
       /\ out = ReassembleJPEG S1 (skipn 2 data)
       /\ (forall s, In s S -> exists a b, skipn 2 data = a ++ emit_segment s ++ b)
       /\ (forall s, In s S -> In s S1 ->
             exists a b c, out = a ++ emit_segment s ++ b ++ emit_segment s ++ c)
       /\ (forall s, In s S -> ~ In s S1 ->
             exists i, FindAPP1Segment S = Some (i, s)).
Proof.
  intros HP HR S1.
  assert (He : segments_end data = 2) by (unfold segments_end; rewrite HR; reflexivity).
  assert (Hinf : forall s, In s S -> exists a b, skipn 2 data = a ++ emit_segment s ++ b).
  { unfold ParseJPEGSegments in HP.
    destruct data as [|x0 [|x1 r]]; try discriminate HP.
    destruct ((bz x0 =? 0xFF) && (bz x1 =? markerSOI)); [|discriminate HP].
    exact (parsed_infix _ _ _ HP). }
  split; [exact He|].
  exists (ReassembleJPEG S1 (skipn 2 data)).
  split; [unfold InsertEXIFSegment; rewrite HP, He; reflexivity|].
  split; [reflexivity|].
  split; [exact Hinf|].
  split.
  - intros s Hs Hs1.
    destruct (emitted_infix S1 s Hs1) as [a1 [b1 E1]].
    destruct (Hinf s Hs) as [a2 [b2 E2]].
    unfold ReassembleJPEG. rewrite E1, E2.
    eexists ([Byte.xff; Byte.xd8] ++ a1), (b1 ++ a2), _.
    rewrite <- !app_assoc. reflexivity.
  - intros s Hs Hn. unfold S1, replace_or_prepend, FindAPP1Segment in *.
    destruct (find_app1_from 0 S) as [[i s0]|] eqn:E.
    + pose proof (not_in_list_set _ _ _ _ Hs Hn) as N1.
      pose proof (find_app1_from_nth _ _ _ _ E) as N2. rewrite Nat.sub_0_r in N2.
      rewrite N1 in N2. injection N2 as ->. exists i. reflexivity.
    + exfalso. apply Hn. right. exact Hs.
Qed.

Lemma insert_rescan_fallback_witness :
  ParseJPEGSegments ([Byte.xff; Byte.xd8] ++ emit_segment app0_jf) = Ok [app0_jf]
  /\ rescan_loop (List.length ([Byte.xff; Byte.xd8] ++ emit_segment app0_jf)) 2
       (skipn 2 ([Byte.xff; Byte.xd8] ++ emit_segment app0_jf)) = None
  /\ segments_end ([Byte.xff; Byte.xd8] ++ emit_segment app0_jf) = 2.
Proof.
  assert (H1 : ParseJPEGSegments ([Byte.xff; Byte.xd8] ++ emit_segment app0_jf) = Ok [app0_jf])
    by (vm_compute; reflexivity).
  assert (H2 : rescan_loop (List.length ([Byte.xff; Byte.xd8] ++ emit_segment app0_jf)) 2
                 (skipn 2 ([Byte.xff; Byte.xd8] ++ emit_segment app0_jf)) = None)
    by (vm_compute; reflexivity).
  split; [exact H1|]. split; [exact H2|].
  exact (proj1 (insert_rescan_fallback _ exif_identifier _ H1 H2)).
Defined.

(** ** C9: malformed children of a container *)

Lemma be32_bytes_roundtrip v :
  0 <= v < 2^32 -> be32 (zb (Z.shiftr v 24)) (zb (Z.shiftr v 16)) (zb (Z.shiftr v 8)) (zb v) = v.
Proof.
  intros H. unfold be32. rewrite !bz_zb, !Z.shiftr_div_pow2 by lia.
  change (2 ^ 24) with 16777216. change (2 ^ 16) with 65536. change (2 ^ 8) with 256.
  change (2 ^ 32) with 4294967296 in H.
  assert (E2 : v / 65536 = v / 256 / 256) by (rewrite Z.div_div by lia; reflexivity).
  assert (E3 : v / 16777216 = v / 256 / 256 / 256) by (rewrite !Z.div_div by lia; reflexivity).
  assert (B3 : 0 <= v / 16777216 < 256)
    by (split; [apply Z.div_pos | apply Z.div_lt_upper_bound]; lia).
  rewrite (Z.mod_small (v / 16777216)) by exact B3.
  rewrite E3 in *. rewrite E2.
  pose proof (Z.div_mod v 256 ltac:(lia)). pose proof (Z.div_mod (v / 256) 256 ltac:(lia)).
  pose proof (Z.div_mod (v / 256 / 256) 256 ltac:(lia)).
  set (q1 := v / 256) in *. set (q2 := q1 / 256) in *. set (q3 := q2 / 256) in *.
  lia.
Qed.

Lemma leaves_length kids :
  forallb leaf_ok kids = true ->
  (8 * List.length kids <= List.length (List.concat (map leaf_bytes kids)))%nat.
Proof.
  induction kids as [|[ty body] kids IH]; intros Hok; [cbn; lia|].
  cbn [forallb] in Hok. apply andb_true_iff in Hok as [Hc Hok].
  unfold leaf_ok in Hc. cbn [fst snd] in Hc.
  apply andb_true_iff in Hc as [[Hl _]%andb_true_iff _]. apply Nat.eqb_eq in Hl.
  specialize (IH Hok).
  cbn [map List.concat List.length]. rewrite length_app.
  unfold leaf_bytes at 1. cbn [fst snd]. rewrite !length_app, Hl. cbn [be32_bytes List.length].
  lia.
Qed.

Lemma child_loop_size_one s0 s1 s2 s3 t0 t1 t2 t3 rest f :
  be32 s0 s1 s2 s3 = 1 ->
  parse_child_loop (Datatypes.S f) ([s0; s1; s2; s3; t0; t1; t2; t3] ++ rest)
  = Err ErrExtendedSizeInChildren.
Proof. intros H. cbn [app parse_child_loop]. rewrite H. reflexivity. Qed.

Lemma child_loop_oversize s0 s1 s2 s3 t0 t1 t2 t3 rest f :
  let bad := [s0; s1; s2; s3; t0; t1; t2; t3] ++ rest in
  be32 s0 s1 s2 s3 <> 0 -> be32 s0 s1 s2 s3 <> 1 ->
  Z.of_nat (List.length bad) < be32 s0 s1 s2 s3 ->
  parse_child_loop (Datatypes.S f) bad = Ok [].
Proof.
  intros bad H0 H1 Hlt. subst bad. cbn [app parse_child_loop List.length].
  rewrite (proj2 (Z.eqb_neq _ 1) H1), (proj2 (Z.eqb_neq _ 0) H0).
  simpl List.length in Hlt.
  rewrite (proj2 (Z.ltb_lt _ _) Hlt). reflexivity.
Qed.

Lemma be32_nonneg b0 b1 b2 b3 : 0 <= be32 b0 b1 b2 b3.
Proof.
  unfold be32. pose proof (bz_range b0). pose proof (bz_range b1).
  pose proof (bz_range b2). pose proof (bz_range b3). lia.
Qed.

Lemma firstn_app_exact {A} (l x : list A) n : n = List.length l -> firstn n (l ++ x) = l.
Proof. intros ->. rewrite firstn_app, Nat.sub_diag, firstn_all. cbn. apply app_nil_r. Qed.

Lemma child_loop_nil f : parse_child_loop f [] = Ok [].
Proof. destruct f; reflexivity. Qed.

Lemma child_loop_step f r s0 s1 s2 s3 t0 t1 t2 t3 r' :
  r = s0 :: s1 :: s2 :: s3 :: t0 :: t1 :: t2 :: t3 :: r' ->
  forall size,
  size = (if be32 s0 s1 s2 s3 =? 0 then Z.of_nat (List.length r) mod 2^32 else be32 s0 s1 s2 s3) ->
  parse_child_loop (Datatypes.S f) r =
  if be32 s0 s1 s2 s3 =? 1 then Err ErrExtendedSizeInChildren
  else if Z.of_nat (List.length r) <? size then Ok []
  else
    children <- (if isContainerAtom [t0; t1; t2; t3] && (0 <? List.length (atom_data size r))%nat
                 then keep_children (parse_child_loop f (atom_data size r))
                 else Ok []) ;;
    rest <- parse_child_loop f (skipn (Z.to_nat size) r) ;;
    Ok (mkAtom size [t0; t1; t2; t3] (atom_data size r) children :: rest).
Proof. intros -> size ->. reflexivity. Qed.

Lemma child_loop_zeros f k :
  Z.of_nat (8 + k) < 2^32 ->
  parse_child_loop (Datatypes.S f) (repeat Byte.x00 (8 + k))
  = Ok [mkAtom (Z.of_nat (8 + k)) [Byte.x00; Byte.x00; Byte.x00; Byte.x00] (repeat Byte.x00 k) []].
Proof.
  intros HL.
  rewrite (child_loop_step f (repeat Byte.x00 (8 + k)) Byte.x00 Byte.x00 Byte.x00 Byte.x00
             Byte.x00 Byte.x00 Byte.x00 Byte.x00 (repeat Byte.x00 k) eq_refl (Z.of_nat (8 + k)))
    by (rewrite repeat_length; cbn [be32 Z.eqb]; symmetry; apply Z.mod_small; lia).
  replace (be32 Byte.x00 Byte.x00 Byte.x00 Byte.x00 =? 1) with false by reflexivity.
  rewrite repeat_length, Z.ltb_irrefl.
  assert (Hd : atom_data (Z.of_nat (8 + k)) (repeat Byte.x00 (8 + k)) = repeat Byte.x00 k).
  { unfold atom_data. destruct k as [|k].
    - reflexivity.
    - rewrite (proj2 (Z.ltb_lt _ _)) by lia.
      replace (Z.to_nat (Z.of_nat (8 + Datatypes.S k) - 8)) with (Datatypes.S k) by lia.
      rewrite repeat_app, skipn_app, firstn_app. cbn [repeat skipn firstn length].
      cbn [List.length Nat.sub skipn app].
      change (Byte.x00 :: repeat Byte.x00 k) with (repeat Byte.x00 (Datatypes.S k)).
      apply firstn_all2. rewrite repeat_length. lia. }
  rewrite Hd. cbn [isContainerAtom].
  replace (isContainerAtom [Byte.x00; Byte.x00; Byte.x00; Byte.x00]) with false by reflexivity.
  cbn [andb bind]. rewrite Nat2Z.id, skipn_all2 by (rewrite repeat_length; lia).
  rewrite child_loop_nil. reflexivity.
Qed.

(** The children loop does not depend on its fuel once the fuel covers the
    input: a container body is shorter than its parent, and the all-zero
    body of a declared size 2..7 holds one non-container atom. *)
Lemma child_loop_fuel f1 : forall f2 r,
  (List.length r <= f1)%nat -> (List.length r <= f2)%nat -> Z.of_nat (List.length r) < 2^32 ->
  parse_child_loop f1 r = parse_child_loop f2 r.
Proof.
  induction f1 as [|f1 IH]; intros f2 r H1 H2 H3.
  - destruct r; [rewrite !child_loop_nil; reflexivity | cbn in H1; lia].
  - destruct f2 as [|f2]; [destruct r; [reflexivity | cbn in H2; lia]|].
    destruct r as [|s0 [|s1 [|s2 [|s3 [|t0 [|t1 [|t2 [|t3 r']]]]]]]]; try reflexivity.
    set (r := s0 :: s1 :: s2 :: s3 :: t0 :: t1 :: t2 :: t3 :: r') in *.
    assert (H8 : (8 <= List.length r)%nat) by (unfold r; cbn [List.length]; lia).
    set (size := if be32 s0 s1 s2 s3 =? 0 then Z.of_nat (List.length r) mod 2^32
                 else be32 s0 s1 s2 s3).
    rewrite (child_loop_step f1 r s0 s1 s2 s3 t0 t1 t2 t3 r' eq_refl size eq_refl).
    rewrite (child_loop_step f2 r s0 s1 s2 s3 t0 t1 t2 t3 r' eq_refl size eq_refl).
    destruct (be32 s0 s1 s2 s3 =? 1) eqn:E1; [reflexivity|].
    destruct (Z.of_nat (List.length r) <? size) eqn:E2; [reflexivity|].
    apply Z.eqb_neq in E1. apply Z.ltb_ge in E2.
    assert (Hsz : 2 <= size).
    { unfold size. pose proof (be32_nonneg s0 s1 s2 s3).
      destruct (be32 s0 s1 s2 s3 =? 0) eqn:E0.
      - rewrite Z.mod_small by lia. lia.
      - apply Z.eqb_neq in E0. lia. }
    assert (Hc : parse_child_loop f1 (atom_data size r) = parse_child_loop f2 (atom_data size r)).
    { unfold atom_data. destruct (8 <? size) eqn:E8.
      - apply Z.ltb_lt in E8.
        apply IH; rewrite length_firstn, length_skipn; lia.
      - apply Z.ltb_ge in E8.
        destruct (Z.eqb_spec size 8) as [->|Hne].
        + cbn. rewrite !child_loop_nil. reflexivity.
        + assert (Hm : (size - 8) mod 2^32 = size - 8 + 2^32).
          { rewrite <- (Z.mod_add (size - 8) 1 (2^32)) by lia. apply Z.mod_small. lia. }
          rewrite Hm.
          replace (Z.to_nat (size - 8 + 2^32)) with (8 + Z.to_nat (size - 16 + 2^32))%nat by lia.
          destruct f1 as [|f1']; [lia|]. destruct f2 as [|f2']; [lia|].
          rewrite !child_loop_zeros by lia. reflexivity. }
    assert (Hr : parse_child_loop f1 (skipn (Z.to_nat size) r)
                 = parse_child_loop f2 (skipn (Z.to_nat size) r))
      by (apply IH; rewrite length_skipn; lia).
    rewrite Hc, Hr. reflexivity.
Qed.

Lemma atoms_loop_step f first r s0 s1 s2 s3 t0 t1 t2 t3 r' :
  r = s0 :: s1 :: s2 :: s3 :: t0 :: t1 :: t2 :: t3 :: r' ->
  forall size,
  size = (if be32 s0 s1 s2 s3 =? 0 then Z.of_nat (List.length r) mod 2^32 else be32 s0 s1 s2 s3) ->
  parse_atoms_loop (Datatypes.S f) first r =
  if be32 s0 s1 s2 s3 =? 1 then
    (if Z.of_nat (List.length r) <? 16 then Err ErrExtendedSizeBeyondFile
     else Err ErrExtendedSizeNotSupported)
  else if Z.of_nat (List.length r) <? size then Err (ErrAtomSizeBeyondFile size)
  else
    children <- (if isContainerAtom [t0; t1; t2; t3] && (0 <? List.length (atom_data size r))%nat
                 then keep_children (parseChildAtoms (atom_data size r))
                 else Ok []) ;;
    rest <- parse_atoms_loop f false (skipn (Z.to_nat size) r) ;;
    Ok (mkAtom size [t0; t1; t2; t3] (atom_data size r) children :: rest).
Proof. intros -> size ->. reflexivity. Qed.

Lemma chunk_facts c X :
  atom_chunk_ok c = true ->
  exists s0 s1 s2 s3 t0 t1 t2 t3 r',
    c ++ X = s0 :: s1 :: s2 :: s3 :: t0 :: t1 :: t2 :: t3 :: r'
    /\ Z.of_nat (List.length c) = (if be32 s0 s1 s2 s3 =? 0
                                   then Z.of_nat (List.length (c ++ X)) mod 2^32
                                   else be32 s0 s1 s2 s3)
    /\ (be32 s0 s1 s2 s3 =? 1) = false
    /\ (Z.of_nat (List.length (c ++ X)) <? Z.of_nat (List.length c)) = false
    /\ [t0; t1; t2; t3] = firstn 4 (skipn 4 c)
    /\ atom_data (Z.of_nat (List.length c)) (c ++ X) = skipn 8 c
    /\ skipn (Z.to_nat (Z.of_nat (List.length c))) (c ++ X) = X.
Proof.
  intros Hc.
  destruct c as [|s0 [|s1 [|s2 [|s3 [|t0 [|t1 [|t2 [|t3 c']]]]]]]]; try discriminate Hc.
  unfold atom_chunk_ok in Hc. apply andb_true_iff in Hc as [H8 Hb].
  apply Nat.leb_le in H8. apply Z.eqb_eq in Hb.
  exists s0, s1, s2, s3, t0, t1, t2, t3, (c' ++ X).
  split; [reflexivity|].
  rewrite Hb. rewrite (proj2 (Z.eqb_neq _ 0)) by lia.
  split; [reflexivity|].
  split; [apply Z.eqb_neq; lia|].
  split; [apply Z.ltb_ge; rewrite length_app; lia|].
  split; [reflexivity|].
  split.
  - unfold atom_data. cbn [skipn].
    destruct (Z.ltb_spec 8 (Z.of_nat (List.length (s0 :: s1 :: s2 :: s3 :: t0 :: t1 :: t2 :: t3 :: c')))).
    + match goal with
      | |- firstn (Z.to_nat ?a) _ = _ =>
          replace (Z.to_nat a) with (List.length c') by (cbn [List.length] in *; lia)
      end.
      apply firstn_app_exact. reflexivity.
    + cbn [List.length] in *. destruct c'; [reflexivity | cbn [List.length] in *; lia].
  - rewrite Nat2Z.id. apply skipn_app_exact. reflexivity.
Qed.

Lemma child_chunk_step f c X :
  atom_chunk_ok c = true ->
  parse_child_loop (Datatypes.S f) (c ++ X)
  = bind (if isContainerAtom (firstn 4 (skipn 4 c)) && (0 <? List.length (skipn 8 c))%nat
          then keep_children (parse_child_loop f (skipn 8 c)) else Ok [])
         (fun ch => bind (parse_child_loop f X)
            (fun rest => Ok (mkAtom (Z.of_nat (List.length c)) (firstn 4 (skipn 4 c))
                                    (skipn 8 c) ch :: rest))).
Proof.
  intros Hc.
  destruct (chunk_facts c X Hc) as (s0 & s1 & s2 & s3 & t0 & t1 & t2 & t3 & r' & Er & Es & E1 & E2 & Et & Ed & Ek).
  rewrite (child_loop_step f (c ++ X) s0 s1 s2 s3 t0 t1 t2 t3 r' Er _ Es).
  rewrite E1, E2, Ed, Ek, <- Et. reflexivity.
Qed.

Lemma atoms_chunk_step f first c X :
  atom_chunk_ok c = true ->
  parse_atoms_loop (Datatypes.S f) first (c ++ X)
  = bind (if isContainerAtom (firstn 4 (skipn 4 c)) && (0 <? List.length (skipn 8 c))%nat
          then keep_children (parseChildAtoms (skipn 8 c)) else Ok [])
         (fun ch => bind (parse_atoms_loop f false X)
            (fun rest => Ok (mkAtom (Z.of_nat (List.length c)) (firstn 4 (skipn 4 c))
                                    (skipn 8 c) ch :: rest))).
Proof.
  intros Hc.
  destruct (chunk_facts c X Hc) as (s0 & s1 & s2 & s3 & t0 & t1 & t2 & t3 & r' & Er & Es & E1 & E2 & Et & Ed & Ek).
  rewrite (atoms_loop_step f first (c ++ X) s0 s1 s2 s3 t0 t1 t2 t3 r' Er _ Es).
  rewrite E1, E2, Ed, Ek, <- Et. reflexivity.
Qed.

Lemma child_loop_no_panic f : forall r, parse_child_loop f r <> Panic.
Proof.
  induction f as [|f IH]; intros r; [discriminate|].
  destruct r as [|s0 [|s1 [|s2 [|s3 [|t0 [|t1 [|t2 [|t3 r']]]]]]]]; try discriminate.
  rewrite (child_loop_step f _ s0 s1 s2 s3 t0 t1 t2 t3 r' eq_refl _ eq_refl).
  destruct (be32 s0 s1 s2 s3 =? 1); [discriminate|].
  match goal with |- context [Z.of_nat ?l <? ?sz] => destruct (Z.of_nat l <? sz) end;
    [discriminate|].
  match goal with
  | |- bind (if ?b then keep_children (parse_child_loop f ?d) else Ok []) _ <> Panic =>
      destruct b; [destruct (parse_child_loop f d) eqn:E; [| |exfalso; exact (IH _ E)]|];
      cbn [keep_children bind]
  end;
  match goal with
  | |- bind (parse_child_loop f ?r2) _ <> Panic =>
      destruct (parse_child_loop f r2) eqn:E2; [discriminate|discriminate|exfalso; exact (IH _ E2)]
  end.
Qed.

Lemma length_chunks cs :
  forallb atom_chunk_ok cs = true -> (8 * List.length cs <= List.length (List.concat cs))%nat.
Proof.
  induction cs as [|c cs IH]; intros H; [cbn; lia|].
  cbn [forallb] in H. apply andb_true_iff in H as [Hc H].
  destruct c as [|s0 [|s1 [|s2 [|s3 c']]]]; try discriminate Hc.
  unfold atom_chunk_ok in Hc. apply andb_true_iff in Hc as [H8 _]. apply Nat.leb_le in H8.
  specialize (IH H). cbn [List.concat List.length]. rewrite length_app. cbn [List.length] in *. lia.
Qed.

(** The children loop over complete atoms followed by [X]: the atoms parse
    as they do on their own, then [X] is parsed. *)
Lemma child_loop_chunks cs : forall f X,
  forallb atom_chunk_ok cs = true -> (List.length cs <= f)%nat ->
  parse_child_loop f (List.concat cs ++ X)
  = bind (parse_child_loop f (List.concat cs))
         (fun a => bind (parse_child_loop (f - List.length cs) X) (fun r => Ok (a ++ r))).
Proof.
  induction cs as [|c cs IH]; intros f X H Hf.
  - cbn [List.concat app List.length]. rewrite child_loop_nil, Nat.sub_0_r. cbn [bind].
    destruct (parse_child_loop f X); reflexivity.
  - destruct f as [|f]; [cbn in Hf; lia|].
    cbn [forallb] in H. apply andb_true_iff in H as [Hc H].
    cbn [List.concat]. rewrite <- app_assoc, !child_chunk_step by exact Hc.
    rewrite IH by (try exact H; cbn in Hf; lia).
    cbn [List.length Nat.sub].
    match goal with
    | |- bind (if ?b then ?x else ?y) _ = _ => destruct (if b then x else y) as [ch| |]
    end; cbn [bind]; try reflexivity.
    destruct (parse_child_loop f (List.concat cs)); cbn [bind]; try reflexivity.
    destruct (parse_child_loop (f - List.length cs) X); reflexivity.
Qed.

Lemma child_loop_chunks_ok cs : forall f,
  forallb atom_chunk_ok cs = true -> exists a, parse_child_loop f (List.concat cs) = Ok a.
Proof.
  induction cs as [|c cs IH]; intros f H.
  - exists []. apply child_loop_nil.
  - destruct f as [|f]; [exists []; reflexivity|].
    cbn [forallb] in H. apply andb_true_iff in H as [Hc H].
    cbn [List.concat]. rewrite child_chunk_step by exact Hc.
    destruct (IH f H) as [a Ha]. rewrite Ha.
    destruct (isContainerAtom _ && _).
    + destruct (parse_child_loop f (skipn 8 c)) eqn:E;
        [eexists; reflexivity | eexists; reflexivity | exfalso; exact (child_loop_no_panic _ _ E)].
    + eexists; reflexivity.
Qed.

Lemma container_chunk_ok tyc body :
  List.length tyc = 4%nat -> Z.of_nat (List.length body) + 8 < 2^32 ->
  let c := be32_bytes (Z.of_nat (List.length body) + 8) ++ tyc ++ body in
  atom_chunk_ok c = true /\ Z.of_nat (List.length c) = Z.of_nat (List.length body) + 8
  /\ firstn 4 (skipn 4 c) = tyc /\ skipn 8 c = body.
Proof.
  intros Hl Hn c.
  destruct tyc as [|t0 [|t1 [|t2 [|t3 [|]]]]]; try discriminate Hl.
  unfold c, be32_bytes. cbn [app atom_chunk_ok skipn firstn List.length].
  rewrite be32_bytes_roundtrip by lia.
  split; [|split; [lia | split; reflexivity]].
  apply andb_true_iff. split; [apply Nat.leb_le; lia | apply Z.eqb_eq; lia].
Qed.

(** C9 (counterexample). A [moov] atom whose body holds a well-formed
    [mvhd] child and then a child declaring size 1.  The file still parses,
    but parseChildAtoms fails on the body and the error is dropped, so
    [moov] is returned with no children.  The earlier [mvhd] child is lost
    too, and FindAtomRecursive no longer finds it. *)
Theorem parse_moov_extended_child_drops_all :
  parseChildAtoms moov_ext_child_body = Err ErrExtendedSizeInChildren
  /\ ParseMP4Atoms moov_ext_child = Ok [mkAtom 32 (bytes_of "moov") moov_ext_child_body []]
  /\ FindAtomRecursive (mkAtom 32 (bytes_of "moov") moov_ext_child_body []) mvhd_type = None.
Proof. split; [|split]; vm_compute; reflexivity. Qed.

(** C9 (amended). Take a recognised container atom whose body is a run of
    complete child atoms (any types, containers included) followed by a
    malformed child, the container standing anywhere: at the top level
    ([parse_atoms_loop], the loop of ParseMP4Atoms) or inside another
    container at any depth ([parse_child_loop], the loop of
    parseChildAtoms), followed by any bytes [X].  The earlier children
    parse on their own to some list.  If the malformed child declares a
    size (other than 0 and 1) beyond the rest of the body, the children
    list is cut there: the container is returned with exactly the earlier
    children.  If it declares size 1 (64-bit size), parseChildAtoms fails
    and the error is dropped: the container is returned with no children,
    the earlier ones included.  In both cases the loop goes on with [X]:
    the container atom is put in front of whatever [X] parses to, so the
    parse does not fail because of the child. *)
Theorem container_malformed_child cs tyc s0 s1 s2 s3 t0 t1 t2 t3 rest X :
  forallb atom_chunk_ok cs = true -> List.length tyc = 4%nat -> isContainerAtom tyc = true ->
  let bad := [s0; s1; s2; s3; t0; t1; t2; t3] ++ rest in
  let body := List.concat cs ++ bad in
  let size := Z.of_nat (List.length body) + 8 in
  size < 2^32 ->
  let container := be32_bytes size ++ tyc ++ body in
  exists earlier, parseChildAtoms (List.concat cs) = Ok earlier
  /\ (be32 s0 s1 s2 s3 <> 0 -> be32 s0 s1 s2 s3 <> 1 ->
      Z.of_nat (List.length bad) < be32 s0 s1 s2 s3 ->
      parseChildAtoms body = Ok earlier
      /\ (forall f first, parse_atoms_loop (Datatypes.S f) first (container ++ X)
            = bind (parse_atoms_loop f false X) (fun r => Ok (mkAtom size tyc body earlier :: r)))
      /\ (forall f, (List.length (container ++ X) <= Datatypes.S f)%nat ->
            parse_child_loop (Datatypes.S f) (container ++ X)
            = bind (parse_child_loop f X) (fun r => Ok (mkAtom size tyc body earlier :: r))))
  /\ (be32 s0 s1 s2 s3 = 1 ->
      parseChildAtoms body = Err ErrExtendedSizeInChildren
      /\ (forall f first, parse_atoms_loop (Datatypes.S f) first (container ++ X)
            = bind (parse_atoms_loop f false X) (fun r => Ok (mkAtom size tyc body [] :: r)))
      /\ (forall f, (List.length (container ++ X) <= Datatypes.S f)%nat ->
            parse_child_loop (Datatypes.S f) (container ++ X)
            = bind (parse_child_loop f X) (fun r => Ok (mkAtom size tyc body [] :: r)))).
Proof.
  intros Hok Hl Hc bad body size Hn container.
  pose proof (length_chunks cs Hok) as Hlen.
  assert (Hb : (List.length body = List.length (List.concat cs) + 8 + List.length rest)%nat)
    by (unfold body, bad; rewrite !length_app; cbn [List.length]; lia).
  destruct (child_loop_chunks_ok cs (List.length (List.concat cs)) Hok) as [earlier He].
  exists earlier. split; [exact He|].
  destruct (container_chunk_ok tyc body Hl Hn) as (Hck & Hcl & Hct & Hcb).
  fold size container in Hck, Hcl, Hct, Hcb.
  assert (Hne : (0 <? List.length body)%nat = true) by (apply Nat.ltb_lt; lia).
  (* parseChildAtoms on the body: the earlier children, then the bad child *)
  assert (Hbody : exists m, parseChildAtoms body
                  = bind (parse_child_loop (Datatypes.S m) bad) (fun r => Ok (earlier ++ r))).
  { unfold parseChildAtoms. unfold body at 2.
    rewrite child_loop_chunks by (try exact Hok; lia).
    rewrite (child_loop_fuel (List.length body) (List.length (List.concat cs))) by lia.
    rewrite He. cbn [bind].
    destruct (List.length body - List.length cs)%nat as [|m] eqn:Em; [lia|].
    exists m. reflexivity. }
  (* the container atom at the top level and inside a parent *)
  assert (Htop : forall ch, keep_children (parseChildAtoms body) = Ok ch ->
            forall f first, parse_atoms_loop (Datatypes.S f) first (container ++ X)
            = bind (parse_atoms_loop f false X) (fun r => Ok (mkAtom size tyc body ch :: r))).
  { intros ch Hch f first. rewrite atoms_chunk_step by exact Hck.
    rewrite Hct, Hcb, Hcl, Hc, Hne. cbn [andb]. rewrite Hch. reflexivity. }
  assert (Hkid : forall ch, keep_children (parseChildAtoms body) = Ok ch ->
            forall f, (List.length (container ++ X) <= Datatypes.S f)%nat ->
            parse_child_loop (Datatypes.S f) (container ++ X)
            = bind (parse_child_loop f X) (fun r => Ok (mkAtom size tyc body ch :: r))).
  { intros ch Hch f Hf. rewrite child_chunk_step by exact Hck.
    rewrite Hct, Hcb, Hcl, Hc, Hne. cbn [andb].
    assert (Hfb : (List.length body <= f)%nat).
    { rewrite length_app in Hf. apply Nat2Z.inj_le. lia. }
    unfold parseChildAtoms in Hch.
    rewrite (child_loop_fuel f (List.length body)) by lia. rewrite Hch. reflexivity. }
  split.
  - intros H0 H1 Hlt.
    assert (Hp : parseChildAtoms body = Ok earlier).
    { destruct Hbody as [m Hm]. rewrite Hm. unfold bad.
      rewrite (child_loop_oversize s0 s1 s2 s3 t0 t1 t2 t3 rest _ H0 H1 Hlt).
      cbn [bind]. rewrite app_nil_r. reflexivity. }
    split; [exact Hp|].
    assert (Hk : keep_children (parseChildAtoms body) = Ok earlier) by (rewrite Hp; reflexivity).
    split; [exact (Htop _ Hk) | exact (Hkid _ Hk)].
  - intros H1.
    assert (Hp : parseChildAtoms body = Err ErrExtendedSizeInChildren).
    { destruct Hbody as [m Hm]. rewrite Hm. unfold bad.
      rewrite (child_loop_size_one s0 s1 s2 s3 t0 t1 t2 t3 rest _ H1). reflexivity. }
    split; [exact Hp|].
    assert (Hk : keep_children (parseChildAtoms body) = Ok []) by (rewrite Hp; reflexivity).
    split; [exact (Htop _ Hk) | exact (Hkid _ Hk)].
Qed.

Lemma container_malformed_child_witness :
  let cs := [mvhd_empty_chunk; trak_tkhd_chunk] in
  let bad := [Byte.x00; Byte.x00; Byte.x00; Byte.x01; Byte.x66; Byte.x72; Byte.x65; Byte.x65]
             ++ repeat Byte.x00 8 in
  let body := List.concat cs ++ bad in
  forallb atom_chunk_ok cs = true
  /\ parseChildAtoms body = Err ErrExtendedSizeInChildren
  /\ ParseMP4Atoms (be32_bytes 48 ++ bytes_of "moov" ++ body)
     = Ok [mkAtom 48 (bytes_of "moov") body []].
Proof.
  intros cs bad body.
  assert (H1 : forallb atom_chunk_ok cs = true) by reflexivity.
  assert (H2 : List.length (bytes_of "moov") = 4%nat) by reflexivity.
  assert (H3 : isContainerAtom (bytes_of "moov") = true) by reflexivity.
  assert (H4 : Z.of_nat (List.length body) + 8 < 2^32) by (vm_compute; reflexivity).
  destruct (container_malformed_child cs (bytes_of "moov")
              Byte.x00 Byte.x00 Byte.x00 Byte.x01 Byte.x66 Byte.x72 Byte.x65 Byte.x65
              (repeat Byte.x00 8) [] H1 H2 H3 H4) as (earlier & _ & _ & Hone).
  destruct (Hone eq_refl) as (Hp & Htop & _).
  split; [exact H1|]. split; [exact Hp|].
  refine (eq_trans (Htop 47%nat true) _). reflexivity.
Defined.

(** ** Further properties of the package *)

(** ** Byte-order round trips *)

Lemma lo_hi16 x : bz (zb x) + 256 * bz (zb (Z.shiftr x 8)) = x mod 65536.
Proof.
  rewrite !bz_zb, Z.shiftr_div_pow2 by lia. change (2 ^ 8) with 256.
  change 65536 with (256 * 256). rewrite Z.rem_mul_r by lia. reflexivity.
Qed.

Lemma length_put_uint16 o v : List.length (put_uint16 o v) = 2%nat.
Proof. destruct o; reflexivity. Qed.

Lemma length_put_uint32 o v : List.length (put_uint32 o v) = 4%nat.
Proof. destruct o; reflexivity. Qed.

Lemma get_put_uint16 o v rest : get_uint16 o (put_uint16 o v ++ rest) 0 = v mod 2^16.
Proof.
  pose proof (lo_hi16 v). change (2 ^ 16) with 65536.
  destruct o; cbn [get_uint16 put_uint16 le16_bytes be16_bytes app];
    unfold le16_at, be16_at, be16; cbn [nth]; lia.
Qed.

Lemma get_put_uint32 o v rest : get_uint32 o (put_uint32 o v ++ rest) 0 = v mod 2^32.
Proof.
  pose proof (lo_hi16 v) as L. pose proof (lo_hi16 (Z.shiftr v 16)) as H.
  assert (Hs : Z.shiftr (Z.shiftr v 16) 8 = Z.shiftr v 24)
    by (rewrite Z.shiftr_shiftr by lia; reflexivity).
  rewrite Hs in H.
  rewrite Z.shiftr_div_pow2 in H by lia. change (2 ^ 16) with 65536 in H.
  assert (E : v mod 2^32 = v mod 65536 + 65536 * ((v / 65536) mod 65536))
    by (change (2 ^ 32) with (65536 * 65536); apply Z.rem_mul_r; lia).
  rewrite E.
  destruct o; cbn [get_uint32 put_uint32 le32_bytes be32_bytes app];
    unfold le32_at, be32_at, le16_at; cbn [nth Nat.add].
  - rewrite <- H, <- L. rewrite (Z.shiftr_div_pow2 v 16) by lia. change (2 ^ 16) with 65536.
    lia.
  - unfold be32. rewrite <- H, <- L. rewrite (Z.shiftr_div_pow2 v 16) by lia.
    change (2 ^ 16) with 65536. lia.
Qed.

Lemma get_uint16_app o pre l i :
  get_uint16 o (pre ++ l) (List.length pre + i) = get_uint16 o l i.
Proof.
  destruct o; cbn [get_uint16]; unfold le16_at, be16_at;
    rewrite <- Nat.add_succ_r, !app_nth2_plus; reflexivity.
Qed.

Lemma get_uint32_app o pre l i :
  get_uint32 o (pre ++ l) (List.length pre + i) = get_uint32 o l i.
Proof.
  destruct o; cbn [get_uint32]; unfold le32_at, be32_at.
  - pose proof (get_uint16_app LittleEndian pre l i) as A.
    pose proof (get_uint16_app LittleEndian pre l (i + 2)) as B.
    cbn [get_uint16] in A, B. rewrite <- Nat.add_assoc, A, B. reflexivity.
  - rewrite <- !Nat.add_succ_r, !app_nth2_plus. reflexivity.
Qed.

Lemma get_uint16_skipn o l n v rest :
  skipn n l = put_uint16 o v ++ rest -> get_uint16 o l n = v mod 2^16.
Proof.
  intros H. assert (Hn : (n <= List.length l)%nat).
  { destruct (Nat.le_gt_cases n (List.length l)) as [|G]; [assumption|].
    rewrite skipn_all2 in H by lia.
    destruct o; discriminate H. }
  rewrite <- (firstn_skipn n l), H.
  replace n with (List.length (firstn n l) + 0)%nat at 2 by (rewrite length_firstn; lia).
  rewrite get_uint16_app. apply get_put_uint16.
Qed.

Lemma get_uint32_skipn o l n v rest :
  skipn n l = put_uint32 o v ++ rest -> get_uint32 o l n = v mod 2^32.
Proof.
  intros H. assert (Hn : (n <= List.length l)%nat).
  { destruct (Nat.le_gt_cases n (List.length l)) as [|G]; [assumption|].
    rewrite skipn_all2 in H by lia.
    destruct o; discriminate H. }
  rewrite <- (firstn_skipn n l), H.
  replace n with (List.length (firstn n l) + 0)%nat at 2 by (rewrite length_firstn; lia).
  rewrite get_uint32_app. apply get_put_uint32.
Qed.

(** X1: CreateTagEntry emits 12 bytes from which the tag id and type (16-bit) and the count and value/offset (32-bit) read back, reduced modulo their widths, in the chosen byte order. *)
Theorem CreateTagEntry_readback tagID tagType count valueOrOffset o :
  let e := CreateTagEntry tagID tagType count valueOrOffset o in
  List.length e = 12%nat
  /\ get_uint16 o e 0 = tagID mod 2^16 /\ get_uint16 o e 2 = tagType mod 2^16
  /\ get_uint32 o e 4 = count mod 2^32 /\ get_uint32 o e 8 = valueOrOffset mod 2^32.
Proof.
  intros e. unfold e, CreateTagEntry.
  split; [destruct o; reflexivity|].
  split; [apply get_put_uint16|].
  split; [apply (get_uint16_skipn _ _ _ _ (put_uint32 o count ++ put_uint32 o valueOrOffset));
          destruct o; reflexivity|].
  split; [apply (get_uint32_skipn _ _ _ _ (put_uint32 o valueOrOffset));
          destruct o; reflexivity|].
  apply (get_uint32_skipn _ _ _ _ []). destruct o; reflexivity.
Qed.

Lemma length_entry_bytes o e : List.length (entry_bytes o e) = 12%nat.
Proof. destruct o; reflexivity. Qed.

Lemma length_entries o es :
  List.length (List.concat (map (entry_bytes o) es)) = (12 * List.length es)%nat.
Proof.
  induction es as [|e es IH]; [reflexivity|].
  cbn [map List.concat List.length]. rewrite length_app, length_entry_bytes, IH. lia.
Qed.

Lemma skipn_entries o es k e :
  nth_error es k = Some e ->
  exists rest, skipn (12 * k) (List.concat (map (entry_bytes o) es)) = entry_bytes o e ++ rest.
Proof.
  revert k. induction es as [|e0 es IH]; intros [|k] H; try discriminate H.
  - injection H as ->. exists (List.concat (map (entry_bytes o) es)). reflexivity.
  - destruct (IH k H) as [rest Hr]. exists rest.
    cbn [map List.concat]. replace (12 * Datatypes.S k)%nat with (12 * k + 12)%nat by lia.
    rewrite <- skipn_skipn, skipn_app_exact by (symmetry; apply length_entry_bytes).
    exact Hr.
Qed.

Lemma entry_fields o l n e R :
  skipn n l = entry_bytes o e ++ R ->
  get_uint16 o l n = TagID e mod 2^16 /\ get_uint16 o l (n + 2) = TagType e mod 2^16
  /\ get_uint32 o l (n + 4) = Count e mod 2^32 /\ get_uint32 o l (n + 8) = Value e mod 2^32.
Proof.
  intros H. unfold entry_bytes, CreateTagEntry in H. rewrite <- !app_assoc in H.
  split; [exact (get_uint16_skipn _ _ _ _ _ H)|].
  split; [apply (get_uint16_skipn _ _ _ _ (put_uint32 o (Count e) ++ put_uint32 o (Value e) ++ R));
          rewrite Nat.add_comm, <- skipn_skipn, H;
          apply skipn_app_exact; symmetry; apply length_put_uint16|].
  split; [apply (get_uint32_skipn _ _ _ _ (put_uint32 o (Value e) ++ R));
          rewrite Nat.add_comm, <- skipn_skipn, H;
          replace 4%nat with (2 + 2)%nat by reflexivity; rewrite <- skipn_skipn;
          rewrite !skipn_app_exact by (symmetry; apply length_put_uint16); reflexivity|].
  apply (get_uint32_skipn _ _ _ _ R).
  rewrite Nat.add_comm, <- skipn_skipn, H.
  replace 8%nat with (4 + (2 + 2))%nat by reflexivity. rewrite <- !skipn_skipn.
  rewrite !skipn_app_exact by (symmetry; apply length_put_uint16 || apply length_put_uint32).
  reflexivity.
Qed.

(** X2: CreateIFD emits 2 + 12n + 4 bytes: the entry count, each entry at offset 2 + 12k and the next-IFD offset at 2 + 12n all read back in the chosen byte order. *)
Theorem CreateIFD_readback entries nextIFDOffset o :
  let ifd := CreateIFD entries nextIFDOffset o in
  let n := List.length entries in
  List.length ifd = (2 + 12 * n + 4)%nat
  /\ get_uint16 o ifd 0 = Z.of_nat n mod 2^16
  /\ (forall k e, nth_error entries k = Some e ->
        get_uint16 o ifd (2 + 12 * k) = TagID e mod 2^16
        /\ get_uint16 o ifd (2 + 12 * k + 2) = TagType e mod 2^16
        /\ get_uint32 o ifd (2 + 12 * k + 4) = Count e mod 2^32
        /\ get_uint32 o ifd (2 + 12 * k + 8) = Value e mod 2^32)
  /\ get_uint32 o ifd (2 + 12 * n) = nextIFDOffset mod 2^32.
Proof.
  intros ifd n. unfold ifd, CreateIFD.
  change (map (fun e => CreateTagEntry (TagID e) (TagType e) (Count e) (Value e) o) entries)
    with (map (entry_bytes o) entries).
  split; [rewrite !length_app, length_put_uint16, length_put_uint32, length_entries; lia|].
  split; [rewrite get_put_uint16; change (2 ^ 16) with 65536; apply Z.mod_mod; lia|].
  split.
  - intros k e Hk. destruct (skipn_entries o _ _ _ Hk) as [rest Hr].
    apply (entry_fields o _ _ e (rest ++ put_uint32 o nextIFDOffset)).
    rewrite (Nat.add_comm 2), <- skipn_skipn, skipn_app_exact by (symmetry; apply length_put_uint16).
    assert (Hlt : (k < List.length entries)%nat) by (apply nth_error_Some; congruence).
    rewrite skipn_app, Hr, length_entries.
    replace (12 * k - 12 * List.length entries)%nat with 0%nat by lia.
    rewrite <- app_assoc. reflexivity.
  - apply (get_uint32_skipn _ _ _ _ []). rewrite app_nil_r.
    rewrite (Nat.add_comm 2), <- skipn_skipn, skipn_app_exact by (symmetry; apply length_put_uint16).
    apply skipn_app_exact. rewrite length_entries. reflexivity.
Qed.

(** X3: CreateTIFFHeader emits 8 bytes: the byte-order mark II or MM, the magic 42 and the IFD offset, readable in that byte order. *)
Theorem CreateTIFFHeader_readback o ifdOffset :
  let hdr := CreateTIFFHeader o ifdOffset in
  List.length hdr = 8%nat
  /\ firstn 2 hdr = bytes_of (match o with LittleEndian => "II" | BigEndian => "MM" end)
  /\ get_uint16 o hdr 2 = 42
  /\ get_uint32 o hdr 4 = ifdOffset mod 2^32.
Proof.
  intros hdr. unfold hdr.
  split; [destruct o; reflexivity|].
  split; [destruct o; reflexivity|].
  split.
  - rewrite (get_uint16_skipn o _ 2 42 (put_uint32 o ifdOffset)); [reflexivity|].
    destruct o; reflexivity.
  - apply (get_uint32_skipn _ _ _ _ []). destruct o; reflexivity.
Qed.

(** X4: PackUint16 and PackUint32 emit 2 and 4 bytes that decode, in the same byte order, to the value modulo 2^16 and 2^32. *)
Theorem PackUint_roundtrip o v :
  List.length (PackUint16 v o) = 2%nat /\ get_uint16 o (PackUint16 v o) 0 = v mod 2^16
  /\ List.length (PackUint32 v o) = 4%nat /\ get_uint32 o (PackUint32 v o) 0 = v mod 2^32.
Proof.
  unfold PackUint16, PackUint32.
  split; [apply length_put_uint16|].
  split; [rewrite <- (app_nil_r (put_uint16 o v)); apply get_put_uint16|].
  split; [apply length_put_uint32|].
  rewrite <- (app_nil_r (put_uint32 o v)). apply get_put_uint32.
Qed.

(** X5: CreateEXIFSegmentWithDefaults is CreateEXIFSegment with the width and length values written at offsets 24 and 36 of the payload; with both 0 it is CreateEXIFSegment. *)
Theorem CreateEXIFSegmentWithDefaults_fields dateTime imageWidth imageLength :
  let d := CreateEXIFSegmentWithDefaults dateTime imageWidth imageLength in
  let c := CreateEXIFSegment dateTime in
  d = firstn 24 c ++ le32_bytes imageWidth ++ firstn 8 (skipn 28 c)
      ++ le32_bytes imageLength ++ skipn 40 c
  /\ le32_at d 24 = imageWidth mod 2^32 /\ le32_at d 36 = imageLength mod 2^32
  /\ CreateEXIFSegmentWithDefaults dateTime 0 0 = c.
Proof.
  intros d c.
  split; [reflexivity|].
  split; [apply (get_uint32_skipn LittleEndian d 24 imageWidth (skipn 28 d)); reflexivity|].
  split; [apply (get_uint32_skipn LittleEndian d 36 imageLength (skipn 40 d)); reflexivity|].
  reflexivity.
Qed.

Lemma has_eoi_suffix_split l : has_eoi_suffix l = true -> exists x, l = x ++ eoi_bytes.
Proof.
  unfold has_eoi_suffix. intros H. apply andb_true_iff in H as [H1 H2].
  unfold bytes_eqb in H2. destruct (list_eq_dec _ _ _) as [E|]; [|discriminate].
  exists (firstn (List.length l - 2) l). rewrite <- E. symmetry. apply firstn_skipn.
Qed.

Lemma has_eoi_suffix_length l : has_eoi_suffix l = true -> (2 <= List.length l)%nat.
Proof.
  unfold has_eoi_suffix. intros H. apply andb_true_iff in H as [H1 _].
  apply Nat.leb_le. exact H1.
Qed.

Lemma reassemble_shape segs imageData :
  let out := ReassembleJPEG segs imageData in
  out = [Byte.xff; Byte.xd8] ++ List.concat (map emit_segment segs) ++ imageData
        ++ (if has_eoi_suffix imageData then [] else eoi_bytes)
  /\ firstn 2 out = [Byte.xff; Byte.xd8]
  /\ has_eoi_suffix out = true.
Proof.
  intros out.
  assert (Hout : out = [Byte.xff; Byte.xd8] ++ List.concat (map emit_segment segs) ++ imageData
                       ++ (if has_eoi_suffix imageData then [] else eoi_bytes)).
  { unfold out, ReassembleJPEG. destruct (has_eoi_suffix imageData) eqn:E.
    - pose proof (has_eoi_suffix_length _ E).
      replace (List.length imageData =? 0)%nat with false by (symmetry; apply Nat.eqb_neq; lia).
      reflexivity.
    - rewrite orb_true_r. reflexivity. }
  split; [exact Hout|]. split; [rewrite Hout; reflexivity|].
  rewrite Hout. destruct (has_eoi_suffix imageData) eqn:E.
  - destruct (has_eoi_suffix_split _ E) as [x ->]. rewrite app_nil_r, !app_assoc.
    apply has_eoi_suffix_app.
  - rewrite !app_assoc. apply has_eoi_suffix_app.
Qed.

(** ** Parsed segments *)

Lemma skip_to_marker_marker r b0 m tl :
  skip_to_marker r = b0 :: m :: tl -> bz b0 = 0xFF /\ bz m <> 0xFF /\ bz m <> 0x00.
Proof.
  induction r as [|x0 r IH]; [discriminate|].
  destruct r as [|x1 r]; [discriminate|].
  intros H. cbn [skip_to_marker] in H.
  destruct ((bz x0 =? 0xFF) && negb (bz x1 =? 0xFF) && negb (bz x1 =? 0x00)) eqn:C.
  - injection H as <- <- <-. repeat rewrite andb_true_iff in C.
    destruct C as [[C1 C2] C3]. apply negb_true_iff, Z.eqb_neq in C2, C3.
    apply Z.eqb_eq in C1. auto.
  - exact (IH H).
Qed.

Lemma parse_loop_segments f : forall r S,
  parse_segments_loop f r = Ok S ->
  forall s, In s S ->
    Length s = Z.of_nat (List.length (Payload s)) + 2 /\ Length s < 65536
    /\ bz (Marker s) <> 0xFF /\ bz (Marker s) <> 0x00 /\ bz (Marker s) <> markerEOI
    /\ is_sof (Marker s) = false.
Proof.
  induction f as [|f IH]; intros r S H s Hs; [injection H as <-; destruct Hs|].
  cbn [parse_segments_loop] in H.
  destruct r as [|x r']; [injection H as <-; destruct Hs|].
  destruct (skip_to_marker (x :: r')) as [|b0 [|m tl]] eqn:Sk;
    try (injection H as <-; destruct Hs).
  destruct (skip_to_marker_marker _ _ _ _ Sk) as (_ & Hff & H00).
  destruct (bz m =? markerEOI) eqn:Heoi; [injection H as <-; destruct Hs|].
  destruct (is_sof m) eqn:Hsof; [injection H as <-; destruct Hs|].
  destruct tl as [|l0 [|l1 tl']]; try discriminate H.
  destruct (be16 l0 l1 <? 2) eqn:L2; [discriminate H|].
  destruct (Z.of_nat (List.length tl') <? be16 l0 l1 - 2) eqn:L3; [discriminate H|].
  apply Z.ltb_ge in L2, L3. apply Z.eqb_neq in Heoi.
  destruct (parse_segments_loop f (skipn (Z.to_nat (be16 l0 l1 - 2)) tl')) as [S'| |] eqn:E;
    cbn [bind] in H; try discriminate H.
  injection H as <-.
  destruct Hs as [<- | Hs]; [|exact (IH _ _ E s Hs)].
  cbn [Length Payload Marker]. rewrite length_firstn.
  pose proof (bz_range l0). pose proof (bz_range l1). unfold be16 in *.
  repeat split; try assumption; lia.
Qed.

Lemma parsed_infix_data data S :
  ParseJPEGSegments data = Ok S ->
  forall s, In s S -> exists a b, data = a ++ emit_segment s ++ b.
Proof.
  intros H s Hs. unfold ParseJPEGSegments in H.
  destruct data as [|b0 [|b1 r]]; try discriminate H.
  destruct ((bz b0 =? 0xFF) && (bz b1 =? markerSOI)); [|discriminate H].
  destruct (parsed_infix _ _ _ H s Hs) as [a [b ->]].
  exists (b0 :: b1 :: a), b. reflexivity.
Qed.

(** X7: every segment ParseJPEGSegments returns has Length = payload length + 2 < 65536, a marker that is none of 0xFF, 0x00, EOI or SOFn, and its bytes occur in the input. *)
Theorem ParseJPEGSegments_segments data S :
  ParseJPEGSegments data = Ok S ->
  forall s, In s S ->
    Length s = Z.of_nat (List.length (Payload s)) + 2 /\ Length s < 65536
    /\ bz (Marker s) <> 0xFF /\ bz (Marker s) <> 0x00 /\ bz (Marker s) <> markerEOI
    /\ is_sof (Marker s) = false
    /\ exists a b, data = a ++ emit_segment s ++ b.
Proof.
  intros H s Hs.
  assert (Hl : exists r, parse_segments_loop (List.length data) r = Ok S).
  { unfold ParseJPEGSegments in H. destruct data as [|b0 [|b1 r]]; try discriminate H.
    destruct ((bz b0 =? 0xFF) && (bz b1 =? markerSOI)); [|discriminate H]. eauto. }
  destruct Hl as [r Hr].
  destruct (parse_loop_segments _ _ _ Hr s Hs) as (A & B & C & D & E & F).
  repeat (split; [assumption|]). exact (parsed_infix_data _ _ H s Hs).
Qed.

Lemma ParseJPEGSegments_segments_witness :
  ParseJPEGSegments exif_then_sof
  = Ok [{| Marker := Byte.xe1; Length := 16;
           Payload := bytes_of "Exif" ++ bytes_z [0; 0; 0x49; 0x49; 0x2A; 0x00; 0x08; 0x00; 0x00; 0x00] |}]
  /\ exists a b, exif_then_sof = a ++ emit_segment {| Marker := Byte.xe1; Length := 16;
           Payload := bytes_of "Exif" ++ bytes_z [0; 0; 0x49; 0x49; 0x2A; 0x00; 0x08; 0x00; 0x00; 0x00] |} ++ b.
Proof.
  assert (H : ParseJPEGSegments exif_then_sof
    = Ok [{| Marker := Byte.xe1; Length := 16;
             Payload := bytes_of "Exif" ++ bytes_z [0; 0; 0x49; 0x49; 0x2A; 0x00; 0x08; 0x00; 0x00; 0x00] |}])
    by (vm_compute; reflexivity).
  split; [exact H|].
  exact (proj2 (proj2 (proj2 (proj2 (proj2 (proj2 (ParseJPEGSegments_segments _ _ H _ (or_introl eq_refl)))))))).
Defined.

Lemma find_app1_from_earlier k S i s :
  find_app1_from k S = Some (i, s) ->
  forall j s', (j < i - k)%nat -> nth_error S j = Some s' -> is_exif_segment s' = false.
Proof.
  revert k. induction S as [|a S IH]; intros k H j s' Hj Hn; [discriminate|].
  cbn [find_app1_from] in H. destruct (is_exif_segment a) eqn:E.
  - injection H as <- <-. lia.
  - destruct (find_app1_from_index _ _ _ _ H) as [Hk _].
    destruct j as [|j]; cbn [nth_error] in Hn.
    + injection Hn as <-. exact E.
    + apply (IH (Datatypes.S k) H j s'); [lia | exact Hn].
Qed.

Lemma find_app1_from_none k S :
  find_app1_from k S = None -> forall s, In s S -> is_exif_segment s = false.
Proof.
  revert k. induction S as [|a S IH]; intros k H s Hs; [destruct Hs|].
  cbn [find_app1_from] in H. destruct (is_exif_segment a) eqn:E; [discriminate|].
  destruct Hs as [<- | Hs]; [exact E | exact (IH _ H s Hs)].
Qed.

(** X8: FindAPP1Segment returns the first segment that is an EXIF APP1 segment, with its index, and None only when there is no such segment. *)
Theorem FindAPP1Segment_first segs :
  (forall i s, FindAPP1Segment segs = Some (i, s) ->
     nth_error segs i = Some s /\ is_exif_segment s = true
     /\ forall j s', (j < i)%nat -> nth_error segs j = Some s' -> is_exif_segment s' = false)
  /\ (FindAPP1Segment segs = None -> forall s, In s segs -> is_exif_segment s = false).
Proof.
  unfold FindAPP1Segment. split.
  - intros i s H.
    pose proof (find_app1_from_nth _ _ _ _ H) as N. rewrite Nat.sub_0_r in N.
    split; [exact N|]. split; [exact (proj2 (find_app1_from_index _ _ _ _ H))|].
    intros j s' Hj. apply (find_app1_from_earlier _ _ _ _ H). lia.
  - apply find_app1_from_none.
Qed.

(** ** Where the image data starts *)

Lemma rescan_loop_found fuel : forall pos r p,
  rescan_loop fuel pos r = Some p ->
  exists k, p = pos + Z.of_nat k /\ (k + 2 <= List.length r)%nat
            /\ image_start_ok (skipn k r) = true.
Proof.
  induction fuel as [|f IH]; intros pos r p H; [discriminate|].
  cbn [rescan_loop] in H. destruct r as [|b0 [|m tl]]; try discriminate H.
  destruct (negb (bz b0 =? 0xFF)) eqn:Hff.
  - destruct (IH _ _ _ H) as (k & Hp & Hk & Hs). exists (Datatypes.S k).
    split; [lia|]. split; [cbn [List.length] in *; lia|]. exact Hs.
  - apply negb_false_iff in Hff.
    destruct (is_sof m) eqn:Hsof.
    + injection H as <-. exists 0%nat. split; [lia|]. split; [cbn; lia|].
      cbn. rewrite Hff, Hsof. reflexivity.
    + destruct (bz m =? markerEOI) eqn:Heoi.
      * injection H as <-. exists 0%nat. split; [lia|]. split; [cbn; lia|].
        cbn. rewrite Hff, Hsof, Heoi. reflexivity.
      * destruct tl as [|l0 [|l1 tl']]; try discriminate H.
        destruct (IH _ _ _ H) as (k & Hp & Hk & Hs).
        pose proof (bz_range l0). pose proof (bz_range l1).
        assert (Hn : Z.to_nat (2 + be16 l0 l1) = (2 + Z.to_nat (be16 l0 l1))%nat)
          by (unfold be16; lia).
        assert (Hlen : (Z.to_nat (2 + be16 l0 l1) <= List.length (b0 :: m :: l0 :: l1 :: tl'))%nat).
        { destruct (Nat.le_gt_cases (Z.to_nat (2 + be16 l0 l1))
                      (List.length (b0 :: m :: l0 :: l1 :: tl'))) as [|G]; [assumption|].
          rewrite skipn_all2 in Hk by lia. cbn in Hk. lia. }
        exists (k + Z.to_nat (2 + be16 l0 l1))%nat.
        rewrite length_skipn in Hk. rewrite <- skipn_skipn.
        split; [unfold be16 in *; lia|]. split; [lia|]. exact Hs.
Qed.

(** X9: the end of the segments found by the rescan of InsertEXIFSegment is 2 or an offset inside the data from which the image data starts. *)
Theorem segments_end_bounds data :
  let e := segments_end data in
  2 <= e
  /\ (e = 2 \/ (e + 2 <= Z.of_nat (List.length data)
                /\ image_start_ok (skipn (Z.to_nat e) data) = true)).
Proof.
  intros e. unfold e, segments_end.
  destruct (rescan_loop (List.length data) 2 (skipn 2 data)) as [p|] eqn:H; [|lia].
  destruct (rescan_loop_found _ _ _ _ H) as (k & Hp & Hk & Hs).
  rewrite length_skipn in Hk. split; [lia|]. right.
  split; [lia|]. rewrite skipn_skipn in Hs. subst p.
  replace (Z.to_nat (2 + Z.of_nat k)) with (k + 2)%nat by lia. exact Hs.
Qed.

Lemma parse_loop_outcome f : forall r,
  match parse_segments_loop f r with
  | Ok _ => True
  | Err e => e = ErrIncompleteSegmentLength \/ e = ErrInvalidSegmentLength
             \/ e = ErrSegmentBeyondFile
  | Panic => False
  end.
Proof.
  induction f as [|f IH]; intros r; [exact I|].
  cbn [parse_segments_loop]. destruct r as [|x r']; [exact I|].
  destruct (skip_to_marker (x :: r')) as [|b0 [|m tl]]; try exact I.
  destruct (bz m =? markerEOI); [exact I|]. destruct (is_sof m); [exact I|].
  destruct tl as [|l0 [|l1 tl']]; [auto | auto|].
  destruct (be16 l0 l1 <? 2); [auto|].
  destruct (Z.of_nat (List.length tl') <? be16 l0 l1 - 2); [auto|].
  specialize (IH (skipn (Z.to_nat (be16 l0 l1 - 2)) tl')).
  destruct (parse_segments_loop f (skipn (Z.to_nat (be16 l0 l1 - 2)) tl')); exact I || exact IH.
Qed.

Lemma soi_check b0 b1 :
  (bz b0 =? 0xFF) && (bz b1 =? markerSOI) = true <-> [b0; b1] = [Byte.xff; Byte.xd8].
Proof.
  split.
  - intros H. apply andb_true_iff in H as [H0 H1]. apply Z.eqb_eq in H0, H1.
    rewrite <- (zb_bz b0), <- (zb_bz b1), H0, H1. reflexivity.
  - intros H. injection H as -> ->. reflexivity.
Qed.

Lemma in_list_set {A} (l : list A) i v : (i < List.length l)%nat -> In v (list_set l i v).
Proof.
  revert i. induction l as [|a l IH]; intros [|i] H; cbn in *; try lia; auto.
  right. apply IH. lia.
Qed.

Lemma in_replace_or_prepend segs v : In v (replace_or_prepend segs v).
Proof.
  unfold replace_or_prepend, FindAPP1Segment.
  destruct (find_app1_from 0 segs) as [[i s]|] eqn:E; [|left; reflexivity].
  apply in_list_set. pose proof (find_app1_from_nth _ _ _ _ E) as N.
  rewrite Nat.sub_0_r in N. apply nth_error_Some. congruence.
Qed.

Lemma parse_no_panic data : ParseJPEGSegments data <> Panic.
Proof.
  unfold ParseJPEGSegments. destruct data as [|b0 [|b1 r]]; try discriminate.
  destruct ((bz b0 =? 0xFF) && (bz b1 =? markerSOI)); [|discriminate].
  pose proof (parse_loop_outcome (List.length (b0 :: b1 :: r)) r) as O.
  destruct (parse_segments_loop _ r); [discriminate | discriminate | destruct O].
Qed.

(** X11: InsertEXIFSegment fails exactly when the parse fails, with the wrapped error; otherwise its output starts with SOI, ends with EOI and contains the new APP1 segment and the image data. *)
Theorem InsertEXIFSegment_result data exifPayload :
  match ParseJPEGSegments data with
  | Ok _ =>
      exists out, InsertEXIFSegment data exifPayload = Ok out
      /\ firstn 2 out = [Byte.xff; Byte.xd8] /\ has_eoi_suffix out = true
      /\ (exists a b, out = a ++ emit_segment (new_app1 exifPayload) ++ b)
      /\ (exists a b, out = a ++ skipn (Z.to_nat (segments_end data)) data ++ b)
  | Err e => InsertEXIFSegment data exifPayload = Err (ErrParseJPEG e)
  | Panic => False
  end.
Proof.
  pose proof (parse_no_panic data) as NP. unfold InsertEXIFSegment.
  destruct (ParseJPEGSegments data) as [segs|e|]; [|reflexivity | exact (NP eq_refl)].
  cbn [wrap_err bind].
  set (S1 := replace_or_prepend segs (new_app1 exifPayload)).
  set (img := skipn (Z.to_nat (segments_end data)) data).
  destruct (reassemble_shape S1 img) as (Hout & H2 & H3).
  exists (ReassembleJPEG S1 img). split; [reflexivity|].
  split; [exact H2|]. split; [exact H3|]. rewrite Hout.
  split.
  - destruct (emitted_infix S1 (new_app1 exifPayload) (in_replace_or_prepend _ _)) as [a [b Hab]].
    rewrite Hab. exists ([Byte.xff; Byte.xd8] ++ a).
    eexists. rewrite <- !app_assoc. reflexivity.
  - exists ([Byte.xff; Byte.xd8] ++ List.concat (map emit_segment S1)).
    eexists. rewrite <- !app_assoc. reflexivity.
Qed.

Lemma decimal_length n : forall u acc,
  (List.length (decimal n u acc) <= n + List.length acc)%nat.
Proof.
  induction n as [|n IH]; intros u acc; [cbn; lia|].
  cbn [decimal]. destruct (u <? 10); [cbn; lia|].
  specialize (IH (u / 10) (digit (u mod 10) :: acc)). cbn [List.length] in IH. lia.
Qed.

Lemma appendInt_length x w : w <= 4 -> (List.length (appendInt x w) <= 25)%nat.
Proof.
  intros Hw. unfold appendInt.
  assert (Hs : (List.length (if (x <? 0)%Z then [Byte.x2d] else []) <= 1)%nat)
    by (destruct (x <? 0); cbn; lia).
  destruct ((w =? 2) && (Z.abs x <? 100)); [rewrite length_app; cbn [List.length]; lia|].
  destruct ((w =? 4) && (Z.abs x <? 10000)); [rewrite length_app; cbn [List.length]; lia|].
  pose proof (decimal_length 20 (Z.abs x) []) as D. cbn [List.length] in D.
  rewrite !length_app, repeat_length. lia.
Qed.

Lemma FormatDateTimeOriginal_length t : (List.length (FormatDateTimeOriginal t) <= 156)%nat.
Proof.
  unfold FormatDateTimeOriginal. rewrite !length_app.
  pose proof (appendInt_length (year t) 4 ltac:(lia)).
  pose proof (appendInt_length (month t) 2 ltac:(lia)).
  pose proof (appendInt_length (day t) 2 ltac:(lia)).
  pose proof (appendInt_length (hour t) 2 ltac:(lia)).
  pose proof (appendInt_length (minute t) 2 ltac:(lia)).
  pose proof (appendInt_length (second t) 2 ltac:(lia)).
  change (List.length (bytes_of ":")) with 1%nat.
  change (List.length (bytes_of " ")) with 1%nat. cbn [List.length]. lia.
Qed.

Lemma CreateEXIFSegment_length t :
  List.length (CreateEXIFSegment t) = (86 + List.length (FormatDateTimeOriginal t))%nat.
Proof. reflexivity. Qed.

Lemma CreateEXIFSegment_small t : Z.of_nat (List.length (CreateEXIFSegment t)) <= 65533.
Proof.
  rewrite CreateEXIFSegment_length. pose proof (FormatDateTimeOriginal_length t). lia.
Qed.

Lemma CreateEXIFSegment_exif t : is_exif_segment (new_app1 (CreateEXIFSegment t)) = true.
Proof. reflexivity. Qed.

(** ** updateJPEGExif *)

Lemma update_unfold data t c segs :
  DryRun c = false -> firstn 2 data = [Byte.xff; Byte.xd8] -> ParseJPEGSegments data = Ok segs ->
  updateJPEGExif data t c =
  if (match FindAPP1Segment segs with Some _ => true | None => false end)
     && negb (OverwriteExif c)
  then NoWrite
  else match InsertEXIFSegment data (CreateEXIFSegment t) with
       | Ok newJPEG => WriteBack newJPEG
       | Err e => UpdateErr (ErrInsertEXIF e)
       | Panic => UpdatePanic
       end.
Proof.
  intros HD Hs HP. unfold updateJPEGExif. rewrite HD.
  destruct data as [|b0 [|b1 r]]; cbn [firstn] in Hs; try discriminate Hs.
  pose proof (proj2 (soi_check b0 b1) Hs) as V. change markerSOI with 0xD8 in V.
  rewrite V. cbn [negb]. rewrite HP. reflexivity.
Qed.

Lemma update_writes_inv data t c out :
  updateJPEGExif data t c = WriteBack out ->
  DryRun c = false /\ firstn 2 data = [Byte.xff; Byte.xd8]
  /\ (exists segs, ParseJPEGSegments data = Ok segs
                   /\ (OverwriteExif c = true \/ FindAPP1Segment segs = None))
  /\ InsertEXIFSegment data (CreateEXIFSegment t) = Ok out.
Proof.
  intros H. unfold updateJPEGExif in H.
  destruct (DryRun c); [discriminate H|]. split; [reflexivity|].
  destruct data as [|b0 [|b1 r]]; try discriminate H.
  destruct ((bz b0 =? 0xFF) && (bz b1 =? 0xD8)) eqn:V; [|discriminate H].
  split; [exact (proj1 (soi_check b0 b1) V)|].
  cbn [negb] in H.
  destruct (ParseJPEGSegments (b0 :: b1 :: r)) as [segs|e|]; try discriminate H.
  destruct (match FindAPP1Segment segs with Some _ => true | None => false end
            && negb (OverwriteExif c)) eqn:X; [discriminate H|].
  split.
  - exists segs. split; [reflexivity|].
    destruct (FindAPP1Segment segs); [|right; reflexivity].
    left. destruct (OverwriteExif c); [reflexivity | discriminate X].
  - destruct (InsertEXIFSegment (b0 :: b1 :: r) (CreateEXIFSegment t)); try discriminate H.
    injection H as ->. reflexivity.
Qed.

Lemma insert_again S D p :
  forallb segment_ok S = true -> image_start_ok D = true -> D <> [] ->
  is_exif_segment (new_app1 p) = true -> Z.of_nat (List.length p) <= 65533 ->
  let S1 := replace_or_prepend S (new_app1 p) in
  let out := ReassembleJPEG S1 D in
  ParseJPEGSegments out = Ok S1 /\ FindAPP1Segment S1 <> None
  /\ InsertEXIFSegment out p = Ok out.
Proof.
  intros HS HD Hne Hx Hp S1 out.
  assert (HS1 : forallb segment_ok S1 = true)
    by (apply replace_or_prepend_ok; [exact HS | apply new_app1_ok, Hp]).
  assert (Hm : exists i, S1 = list_set S i (new_app1 p)
                         /\ FindAPP1Segment S1 = Some (i, new_app1 p)
               \/ S1 = new_app1 p :: S /\ FindAPP1Segment S1 = Some (0%nat, new_app1 p)).
  { unfold S1, replace_or_prepend, FindAPP1Segment.
    destruct (find_app1_from 0 S) as [[i s]|] eqn:E.
    - exists i. left. split; [reflexivity|].
      apply (find_app1_from_set _ _ _ _ (new_app1 p)) in E; [|exact Hx].
      rewrite Nat.sub_0_r in E. exact E.
    - exists 0%nat. right. split; [reflexivity|]. cbn. rewrite Hx. reflexivity. }
  assert (Hidem : replace_or_prepend S1 (new_app1 p) = S1).
  { destruct Hm as [i [[Hs1 Hf1]|[Hs1 Hf1]]]; unfold replace_or_prepend at 1; rewrite Hf1.
    - rewrite Hs1, list_set_idem. reflexivity.
    - rewrite Hs1. reflexivity. }
  set (tail := if (List.length D =? 0)%nat || negb (has_eoi_suffix D) then eoi_bytes else []).
  assert (Hr : out = [Byte.xff; Byte.xd8] ++ List.concat (map emit_segment S1) ++ D ++ tail)
    by reflexivity.
  destruct (image_start_app D tail HD Hne) as [HDt HDtne].
  split; [rewrite Hr; apply parse_file; [exact HS1 | apply image_start_stops; assumption]|].
  split; [destruct Hm as [i [[_ Hf1]|[_ Hf1]]]; rewrite Hf1; discriminate|].
  rewrite Hr at 1. rewrite insert_on_wellformed by assumption. rewrite Hidem.
  assert (Ht : ((List.length (D ++ tail) =? 0)%nat || negb (has_eoi_suffix (D ++ tail)))
               = false).
  { unfold tail.
    destruct ((List.length D =? 0)%nat || negb (has_eoi_suffix D)) eqn:C.
    - rewrite has_eoi_suffix_app, length_app. cbn [List.length eoi_bytes negb].
      rewrite orb_false_r. apply Nat.eqb_neq. lia.
    - rewrite app_nil_r. exact C. }
  unfold ReassembleJPEG at 1. rewrite Ht, app_nil_r. rewrite Hr. reflexivity.
Qed.

(** X13: on a well-formed JPEG, the file written by updateJPEGExif is left alone by a run without overwrite, and a run with overwrite and the same time rewrites it unchanged. *)
Theorem updateJPEGExif_second_run S D dateTime config newJPEG :
  forallb segment_ok S = true -> image_start_ok D = true -> D <> [] ->
  updateJPEGExif ([Byte.xff; Byte.xd8] ++ List.concat (map emit_segment S) ++ D)
    dateTime config = WriteBack newJPEG ->
  (forall t' c', OverwriteExif c' = false -> updateJPEGExif newJPEG t' c' = NoWrite)
  /\ (forall c', DryRun c' = false -> OverwriteExif c' = true ->
        updateJPEGExif newJPEG dateTime c' = WriteBack newJPEG).
Proof.
  intros HS HD Hne H.
  destruct (update_writes_inv _ _ _ _ H) as (_ & _ & _ & Hins).
  rewrite insert_on_wellformed in Hins by assumption. injection Hins as <-.
  set (p := CreateEXIFSegment dateTime).
  destruct (insert_again S D p HS HD Hne (CreateEXIFSegment_exif dateTime)
              (CreateEXIFSegment_small dateTime)) as (HP & HF & HI).
  destruct (reassemble_shape (replace_or_prepend S (new_app1 p)) D) as (_ & H2 & _).
  split.
  - intros t' c' Ho. destruct (DryRun c') eqn:Dr; [unfold updateJPEGExif; rewrite Dr; reflexivity|].
    rewrite (update_unfold _ t' c' _ Dr H2 HP).
    destruct (FindAPP1Segment (replace_or_prepend S (new_app1 p))); [|congruence].
    rewrite Ho. reflexivity.
  - intros c' Dr Ho. rewrite (update_unfold _ dateTime c' _ Dr H2 HP).
    rewrite Ho, andb_false_r. fold p. rewrite HI. reflexivity.
Qed.

Lemma updateJPEGExif_second_run_witness :
  exists out,
    updateJPEGExif ([Byte.xff; Byte.xd8] ++ List.concat (map emit_segment [app0_jf]) ++ eoi_bytes)
      sample_time sample_config = WriteBack out
    /\ updateJPEGExif out sample_time sample_config = NoWrite.
Proof.
  assert (H1 : forallb segment_ok [app0_jf] = true) by reflexivity.
  assert (H2 : image_start_ok eoi_bytes = true) by reflexivity.
  assert (H3 : eoi_bytes <> []) by discriminate.
  remember (updateJPEGExif ([Byte.xff; Byte.xd8] ++ List.concat (map emit_segment [app0_jf])
              ++ eoi_bytes) sample_time sample_config) as u eqn:E.
  destruct u as [|out| |]; try (vm_compute in E; discriminate E).
  exists out. split; [reflexivity|].
  exact (proj1 (updateJPEGExif_second_run _ _ _ _ _ H1 H2 H3 (eq_sym E)) sample_time
           sample_config eq_refl).
Defined.

(** X14: converting a 32-bit QuickTime time to Unix time and back gives the same value. *)
Theorem QuickTimeToUnix_roundtrip qtTime :
  0 <= qtTime < 2^32 -> UnixToQuickTime (QuickTimeToUnix qtTime) = qtTime.
Proof.
  intros H. rewrite UnixToQuickTime_mod, QuickTimeToUnix_uint32 by exact H.
  replace (qtTime - quickTimeEpochOffset + quickTimeEpochOffset) with qtTime by lia.
  apply Z.mod_small. exact H.
Qed.

Lemma QuickTimeToUnix_roundtrip_witness :
  0 <= 0 < 2^32 /\ UnixToQuickTime (QuickTimeToUnix 0) = 0.
Proof.
  assert (H : 0 <= 0 < 2^32) by lia. split; [exact H|].
  exact (QuickTimeToUnix_roundtrip 0 H).
Defined.

Lemma find_app {A} (f : A -> bool) l1 l2 :
  find f (l1 ++ l2) = match find f l1 with Some x => Some x | None => find f l2 end.
Proof.
  induction l1 as [|x l1 IH]; [reflexivity|]. cbn. destruct (f x); [reflexivity | exact IH].
Qed.

(** X15: FindAtomRecursive returns the first atom of the requested type in a pre-order walk of the atom tree. *)
Theorem FindAtomRecursive_preorder atom atomType :
  FindAtomRecursive atom atomType
  = find (fun a => bytes_eqb (Atom_Type a) atomType) (preorder atom).
Proof.
  revert atom. fix IH 1. intros [sz ty d cs]. cbn [FindAtomRecursive preorder find Atom_Type].
  destruct (bytes_eqb ty atomType); [reflexivity|].
  revert cs. fix IHl 1. intros [|c cs]; [reflexivity|].
  rewrite find_app, IH. destruct (find _ (preorder c)); [reflexivity|]. apply IHl.
Qed.

Lemma top_leaf_step c X f first :
  leaf_ok c = true ->
  parse_atoms_loop (Datatypes.S f) first (leaf_bytes c ++ X)
  = bind (parse_atoms_loop f false X) (fun rest => Ok (leaf_atom c :: rest)).
Proof.
  destruct c as [ty body]. unfold leaf_ok, leaf_bytes, leaf_atom. cbn [fst snd].
  intros H. repeat rewrite andb_true_iff in H. destruct H as [[Hl Hc] Hn].
  apply Nat.eqb_eq in Hl. apply negb_true_iff in Hc. apply Z.ltb_lt in Hn.
  destruct ty as [|t0 [|t1 [|t2 [|t3 [|]]]]]; try discriminate Hl.
  set (n := Z.of_nat (List.length body)) in *.
  unfold be32_bytes. rewrite <- app_assoc. cbn [app parse_atoms_loop].
  rewrite be32_bytes_roundtrip by lia.
  replace (n + 8 =? 1) with false by (symmetry; apply Z.eqb_neq; lia).
  replace (n + 8 =? 0) with false by (symmetry; apply Z.eqb_neq; lia).
  cbn [List.length]. rewrite length_app.
  replace (Z.of_nat (Datatypes.S (Datatypes.S (Datatypes.S (Datatypes.S (Datatypes.S
            (Datatypes.S (Datatypes.S (Datatypes.S (List.length body + List.length X)))))))))
           <? n + 8) with false by (symmetry; apply Z.ltb_ge; lia).
  rewrite Hc. cbn [andb bind].
  assert (Hd : atom_data (n + 8) ([zb (Z.shiftr (n + 8) 24); zb (Z.shiftr (n + 8) 16);
                 zb (Z.shiftr (n + 8) 8); zb (n + 8); t0; t1; t2; t3] ++ body ++ X) = body).
  { unfold atom_data. replace (n + 8 - 8) with n by lia. cbn [skipn app].
    destruct (8 <? n + 8) eqn:E.
    - replace (Z.to_nat n) with (List.length body) by lia. apply firstn_skipn_app.
    - apply Z.ltb_ge in E. destruct body; [reflexivity | cbn [List.length] in n; lia]. }
  cbn [app] in Hd. rewrite Hd.
  rewrite (skipn_app_exact ([zb (Z.shiftr (n + 8) 24); zb (Z.shiftr (n + 8) 16);
             zb (Z.shiftr (n + 8) 8); zb (n + 8); t0; t1; t2; t3] ++ body) X)
    by (rewrite length_app; cbn [List.length]; lia).
  reflexivity.
Qed.

Lemma top_leaves kids X : forall f,
  forallb leaf_ok kids = true -> (List.length kids <= f)%nat ->
  parse_atoms_loop f false (List.concat (map leaf_bytes kids) ++ X)
  = bind (parse_atoms_loop (f - List.length kids) false X)
         (fun rest => Ok (map leaf_atom kids ++ rest)).
Proof.
  induction kids as [|c kids IH]; intros f Hok Hf.
  - rewrite Nat.sub_0_r. cbn [List.concat map app].
    destruct (parse_atoms_loop f false X); reflexivity.
  - destruct f as [|f]; [cbn in Hf; lia|].
    cbn [forallb] in Hok. apply andb_true_iff in Hok as [Hc Hok].
    cbn [map List.concat]. rewrite <- app_assoc, top_leaf_step by exact Hc.
    rewrite IH by (try exact Hok; cbn in Hf; lia).
    cbn [List.length]. rewrite Nat.sub_succ.
    destruct (parse_atoms_loop (f - List.length kids) false X); reflexivity.
Qed.

Lemma atoms_loop_short f first r :
  (1 <= List.length r < 8)%nat ->
  parse_atoms_loop (Datatypes.S f) first r
  = if first then Err (ErrDataTooShort (Z.of_nat (List.length r))) else Ok [].
Proof.
  intros H.
  destruct r as [|x0 [|x1 [|x2 [|x3 [|x4 [|x5 [|x6 [|x7 r]]]]]]]];
    cbn [List.length] in H; try lia; reflexivity.
Qed.

Lemma atoms_loop_tail f X : (List.length X < 8)%nat -> parse_atoms_loop f false X = Ok [].
Proof.
  intros H. destruct f as [|f]; [reflexivity|].
  destruct X as [|x X]; [reflexivity|].
  rewrite atoms_loop_short by (cbn [List.length] in *; lia). reflexivity.
Qed.

(** X16: ParseMP4Atoms of a nonempty sequence of well-formed leaf atoms followed by fewer than 8 bytes returns those atoms and ignores the trailing bytes. *)
Theorem ParseMP4Atoms_leaves kids junk :
  forallb leaf_ok kids = true -> kids <> [] -> (List.length junk < 8)%nat ->
  ParseMP4Atoms (List.concat (map leaf_bytes kids) ++ junk) = Ok (map leaf_atom kids).
Proof.
  intros Hok Hne Hj. destruct kids as [|c ks]; [congruence|].
  pose proof (leaves_length (c :: ks) Hok) as L.
  cbn [forallb] in Hok. apply andb_true_iff in Hok as [Hc Hks].
  cbn [map List.concat] in *. rewrite <- app_assoc.
  set (data := leaf_bytes c ++ List.concat (map leaf_bytes ks) ++ junk).
  assert (Ld : (8 * Datatypes.S (List.length ks) <= List.length data)%nat)
    by (unfold data; rewrite app_assoc, length_app; cbn [List.length] in L; lia).
  assert (Hd : ParseMP4Atoms data = parse_atoms_loop (List.length data) true data).
  { unfold ParseMP4Atoms. destruct data as [|b data']; [cbn in Ld; lia | reflexivity]. }
  rewrite Hd. destruct (List.length data) as [|f] eqn:Ef; [lia|].
  unfold data. rewrite top_leaf_step by exact Hc.
  rewrite top_leaves by (assumption || lia).
  rewrite atoms_loop_tail by exact Hj. cbn [bind]. rewrite app_nil_r. reflexivity.
Qed.

Lemma ParseMP4Atoms_leaves_witness :
  let kids := [(bytes_of "free", [Byte.x01; Byte.x02]); (bytes_of "skip", [])] in
  forallb leaf_ok kids = true /\ kids <> [] /\ (List.length [Byte.x00; Byte.x00] < 8)%nat
  /\ ParseMP4Atoms (List.concat (map leaf_bytes kids) ++ [Byte.x00; Byte.x00])
     = Ok (map leaf_atom kids).
Proof.
  intros kids.
  assert (H1 : forallb leaf_ok kids = true) by reflexivity.
  assert (H2 : kids <> []) by discriminate.
  assert (H3 : (List.length [Byte.x00; Byte.x00] < 8)%nat) by (cbn; lia).
  split; [exact H1|]. split; [exact H2|]. split; [exact H3|].
  exact (ParseMP4Atoms_leaves kids _ H1 H2 H3).
Defined.

Lemma bytes_eqb_true a b : bytes_eqb a b = true -> a = b.
Proof. unfold bytes_eqb. destruct (list_eq_dec _ a b); [auto | discriminate]. Qed.

Lemma vget_child v lo len i :
  vget {| varr := varr v; voff := voff v + lo; vlen := len |} i = vget v (lo + i).
Proof. unfold vget. cbn [varr voff]. rewrite Z.add_assoc. reflexivity. Qed.

Lemma type_at_child v lo len cp :
  type_at {| varr := varr v; voff := voff v + lo; vlen := len |} cp = type_at v (lo + cp).
Proof.
  unfold type_at. rewrite !vget_child, !Z.add_assoc. reflexivity.
Qed.

Lemma children_sound fuel : forall v atomType pos p,
  0 <= pos -> vlen v <= vcap v ->
  findAtomInChildren_loop fuel v atomType pos = Ok p ->
  0 <= p /\ p + 8 <= vcap v /\ type_at v p = atomType.
Proof.
  induction fuel as [|f IH]; intros v ty pos p Hpos Hv H; [discriminate H|].
  cbn [findAtomInChildren_loop] in H.
  destruct ((pos <? vlen v) && (pos + 8 <=? vlen v)) eqn:B; [|discriminate H].
  apply andb_true_iff in B as [_ B]. apply Z.leb_le in B.
  pose proof (be32_nonneg (vget v pos) (vget v (pos + 1)) (vget v (pos + 2)) (vget v (pos + 3)))
    as Hs.
  set (size := be32 (vget v pos) (vget v (pos + 1)) (vget v (pos + 2)) (vget v (pos + 3)))
    in *.
  destruct (bytes_eqb _ ty) eqn:T.
  - injection H as <-. apply bytes_eqb_true in T. split; [lia|]. split; [lia | exact T].
  - destruct (size =? 0) eqn:S0; [discriminate H|]. destruct (size =? 1) eqn:S1; [discriminate H|].
    apply Z.eqb_neq in S0, S1.
    destruct (isContainerAtom _ && (8 <? size)) eqn:C.
    + unfold reslice in H.
      destruct ((0 <=? pos + 8) && (pos + 8 <=? pos + size) && (pos + size <=? vcap v)) eqn:R;
        [|discriminate H].
      repeat rewrite andb_true_iff in R. destruct R as [[_ _] R]. apply Z.leb_le in R.
      cbn [bind] in H.
      destruct (findAtomInChildren_loop f {| varr := varr v; voff := voff v + (pos + 8);
                                             vlen := pos + size - (pos + 8) |} ty 0)
        as [cp|e|] eqn:Fc; cbn [child_hit bind] in H; try discriminate H.
      * injection H as <-.
        assert (Hcv : vlen {| varr := varr v; voff := voff v + (pos + 8); vlen := pos + size - (pos + 8) |} <= vcap {| varr := varr v; voff := voff v + (pos + 8); vlen := pos + size - (pos + 8) |})
          by (unfold vcap in *; cbn [vlen varr voff]; lia).
        destruct (IH _ ty 0 cp (Z.le_refl 0) Hcv Fc)
          as (A & Bd & Ty).
        unfold vcap in *. cbn [varr voff] in Bd.
        rewrite type_at_child in Ty. split; [lia|]. split; [lia | exact Ty].
      * exact (IH v ty (pos + size) p ltac:(lia) Hv H).
    + cbn [bind] in H. exact (IH v ty (pos + size) p ltac:(lia) Hv H).
Qed.

Lemma position_sound fuel : forall v atomType pos p,
  0 <= pos -> vlen v <= vcap v ->
  findAtomPosition_loop fuel v atomType pos = Ok p ->
  0 <= p /\ p + 8 <= vcap v /\ type_at v p = atomType.
Proof.
  induction fuel as [|f IH]; intros v ty pos p Hpos Hv H; [discriminate H|].
  cbn [findAtomPosition_loop] in H.
  destruct ((pos <? vlen v) && (pos + 8 <=? vlen v)) eqn:B; [|discriminate H].
  apply andb_true_iff in B as [_ B]. apply Z.leb_le in B.
  pose proof (be32_nonneg (vget v pos) (vget v (pos + 1)) (vget v (pos + 2)) (vget v (pos + 3)))
    as Hs.
  set (size := be32 (vget v pos) (vget v (pos + 1)) (vget v (pos + 2)) (vget v (pos + 3)))
    in *.
  destruct (bytes_eqb _ ty) eqn:T.
  - injection H as <-. apply bytes_eqb_true in T. split; [lia|]. split; [lia | exact T].
  - destruct (size =? 0) eqn:S0; [discriminate H|]. destruct (size =? 1) eqn:S1; [discriminate H|].
    apply Z.eqb_neq in S0, S1.
    destruct (isContainerAtom _ && (8 <? size)) eqn:C.
    + unfold reslice in H.
      destruct ((0 <=? pos + 8) && (pos + 8 <=? pos + size) && (pos + size <=? vcap v)) eqn:R;
        [|discriminate H].
      repeat rewrite andb_true_iff in R. destruct R as [[_ _] R]. apply Z.leb_le in R.
      cbn [bind] in H. unfold findAtomInChildren in H.
      destruct (findAtomInChildren_loop _ {| varr := varr v; voff := voff v + (pos + 8);
                                             vlen := pos + size - (pos + 8) |} ty 0)
        as [cp|e|] eqn:Fc; cbn [child_hit bind] in H; try discriminate H.
      * injection H as <-.
        assert (Hcv : vlen {| varr := varr v; voff := voff v + (pos + 8); vlen := pos + size - (pos + 8) |} <= vcap {| varr := varr v; voff := voff v + (pos + 8); vlen := pos + size - (pos + 8) |})
          by (unfold vcap in *; cbn [vlen varr voff]; lia).
        destruct (children_sound _ _ ty 0 cp (Z.le_refl 0) Hcv Fc) as (A & Bd & Ty).
        unfold vcap in *. cbn [varr voff] in Bd.
        rewrite type_at_child in Ty. split; [lia|]. split; [lia | exact Ty].
      * exact (IH v ty (pos + size) p ltac:(lia) Hv H).
    + cbn [bind] in H. exact (IH v ty (pos + size) p ltac:(lia) Hv H).
Qed.

(** ** What the mvhd patch writes *)

Lemma list_set_last {A} (h : list A) a b : list_set (h ++ [a]) (List.length h) b = h ++ [b].
Proof. induction h as [|x h IH]; [reflexivity|]. cbn. rewrite IH. reflexivity. Qed.

Lemma put_bytes_fresh h a n lo bs :
  put_bytes (h ++ [a]) {| sarr := List.length h; soff := 0; slen := n |} lo bs
  = if (0 <=? lo) && (lo + Z.of_nat (List.length bs) <=? Z.of_nat (List.length a))
    then Ok (h ++ [overwrite a (Z.to_nat lo) bs]) else Panic.
Proof.
  unfold put_bytes. cbn [sarr soff]. rewrite nth_middle, Z.sub_0_r, Z.add_0_l.
  destruct (_ && _); [rewrite list_set_last; reflexivity | reflexivity].
Qed.

Lemma length_overwrite a i bs :
  (i + List.length bs <= List.length a)%nat -> List.length (overwrite a i bs) = List.length a.
Proof.
  intros H. unfold overwrite. rewrite !length_app, length_firstn, length_skipn. lia.
Qed.

Lemma overwrite_twice a i bs1 bs2 :
  (i + List.length bs1 + List.length bs2 <= List.length a)%nat ->
  overwrite (overwrite a i bs1) (i + List.length bs1) bs2
  = firstn i a ++ bs1 ++ bs2 ++ skipn (i + List.length bs1 + List.length bs2) a.
Proof.
  intros H. unfold overwrite at 1.
  assert (Hf : firstn (i + List.length bs1) (overwrite a i bs1) = firstn i a ++ bs1).
  { unfold overwrite. rewrite app_assoc. apply firstn_app_exact.
    rewrite length_app, length_firstn. lia. }
  assert (Hs : skipn (i + List.length bs1 + List.length bs2) (overwrite a i bs1)
               = skipn (i + List.length bs1 + List.length bs2) a).
  { unfold overwrite. rewrite app_assoc.
    replace (i + List.length bs1 + List.length bs2)%nat
      with (List.length bs2 + List.length (firstn i a ++ bs1))%nat
      by (rewrite length_app, length_firstn; lia).
    rewrite <- skipn_skipn, skipn_app_exact by reflexivity.
    rewrite skipn_skipn. f_equal. rewrite length_app, length_firstn. lia. }
  rewrite Hf, Hs, <- app_assoc. reflexivity.
Qed.

Lemma length_be32_bytes v : List.length (be32_bytes v) = 4%nat.
Proof. reflexivity. Qed.

Lemma length_be64_bytes v : List.length (be64_bytes v) = 8%nat.
Proof. reflexivity. Qed.

Lemma mvhd_writes h data mvhdAtom unixTime h' newData :
  updateMvhdCreationTime h data mvhdAtom unixTime = Ok (h', newData) ->
  let b := slice_bytes h data in
  let q := UnixToQuickTime unixTime in
  exists p, findAtomPosition (view_of h data) mvhd_type = Ok p
  /\ newData = {| sarr := List.length h; soff := 0; slen := slen data |}
  /\ (bz (nth 0 (Data mvhdAtom) Byte.x00) = 0
      /\ (Z.to_nat (p + 12) + 8 <= List.length b)%nat
      /\ h' = h ++ [firstn (Z.to_nat (p + 12)) b ++ be32_bytes q ++ be32_bytes q
                    ++ skipn (Z.to_nat (p + 12) + 8) b]
      \/ bz (nth 0 (Data mvhdAtom) Byte.x00) = 1
      /\ (Z.to_nat (p + 12) + 16 <= List.length b)%nat
      /\ h' = h ++ [firstn (Z.to_nat (p + 12)) b ++ be64_bytes q ++ be64_bytes q
                    ++ skipn (Z.to_nat (p + 12) + 16) b]).
Proof.
  intros H b q. unfold updateMvhdCreationTime in H.
  destruct (findAtomPosition (view_of h data) mvhd_type) as [p|e|] eqn:F;
    cbn [wrap_err bind] in H; try discriminate H.
  exists p. split; [reflexivity|].
  destruct (List.length (Data mvhdAtom) <? 4)%nat; [discriminate H|].
  unfold make_copy in H. cbv beta iota zeta in H. cbn [slen] in H. fold b q in H.
  replace (p + 8 + 4) with (p + 12) in H by lia.
  destruct (bz (nth 0 (Data mvhdAtom) Byte.x00) =? 0) eqn:V.
  - apply Z.eqb_eq in V.
    destruct (slen data <? p + 12 + 4); [discriminate H|].
    rewrite put_bytes_fresh in H.
    destruct ((0 <=? p + 12) && (p + 12 + Z.of_nat (List.length (be32_bytes q))
                                 <=? Z.of_nat (List.length b))) eqn:P1; [|discriminate H].
    cbn [bind] in H. rewrite put_bytes_fresh in H.
    destruct ((0 <=? p + 12 + 4) && (p + 12 + 4 + Z.of_nat (List.length (be32_bytes q))
                <=? Z.of_nat (List.length (overwrite b (Z.to_nat (p + 12)) (be32_bytes q)))))
      eqn:P2; [|discriminate H].
    cbn [bind] in H. injection H as <- <-. split; [reflexivity|]. left. split; [exact V|].
    apply andb_true_iff in P1 as [P1a P1b]. apply Z.leb_le in P1a, P1b.
    rewrite length_be32_bytes in P1b.
    apply andb_true_iff in P2 as [_ P2]. apply Z.leb_le in P2.
    rewrite length_overwrite in P2 by (rewrite length_be32_bytes; lia).
    rewrite length_be32_bytes in P2.
    split; [lia|].
    replace (Z.to_nat (p + 12 + 4)) with (Z.to_nat (p + 12) + List.length (be32_bytes q))%nat
      by (rewrite length_be32_bytes; lia).
    rewrite overwrite_twice by (rewrite !length_be32_bytes; lia).
    rewrite !length_be32_bytes, <- Nat.add_assoc. reflexivity.
  - destruct (bz (nth 0 (Data mvhdAtom) Byte.x00) =? 1) eqn:V1; [|discriminate H].
    apply Z.eqb_eq in V1.
    destruct (slen data <? p + 12 + 8); [discriminate H|].
    rewrite put_bytes_fresh in H.
    destruct ((0 <=? p + 12) && (p + 12 + Z.of_nat (List.length (be64_bytes q))
                                 <=? Z.of_nat (List.length b))) eqn:P1; [|discriminate H].
    cbn [bind] in H. rewrite put_bytes_fresh in H.
    destruct ((0 <=? p + 12 + 8) && (p + 12 + 8 + Z.of_nat (List.length (be64_bytes q))
                <=? Z.of_nat (List.length (overwrite b (Z.to_nat (p + 12)) (be64_bytes q)))))
      eqn:P2; [|discriminate H].
    cbn [bind] in H. injection H as <- <-. split; [reflexivity|]. right. split; [exact V1|].
    apply andb_true_iff in P1 as [P1a P1b]. apply Z.leb_le in P1a, P1b.
    rewrite length_be64_bytes in P1b.
    apply andb_true_iff in P2 as [_ P2]. apply Z.leb_le in P2.
    rewrite length_overwrite in P2 by (rewrite length_be64_bytes; lia).
    rewrite length_be64_bytes in P2.
    split; [lia|].
    replace (Z.to_nat (p + 12 + 8)) with (Z.to_nat (p + 12) + List.length (be64_bytes q))%nat
      by (rewrite length_be64_bytes; lia).
    rewrite overwrite_twice by (rewrite !length_be64_bytes; lia).
    rewrite !length_be64_bytes, <- Nat.add_assoc. reflexivity.
Qed.

(** X18: a position returned by findAtomPosition is a header inside the buffer whose type field is the requested type. *)
Theorem findAtomPosition_sound v atomType p :
  vlen v <= vcap v -> findAtomPosition v atomType = Ok p ->
  0 <= p /\ p + 8 <= vcap v /\ type_at v p = atomType.
Proof. intros Hv H. exact (position_sound _ v atomType 0 p (Z.le_refl 0) Hv H). Qed.

Lemma findAtomPosition_sound_witness :
  let v := view_of [sample_mp4] {| sarr := 0; soff := 0; slen := Z.of_nat (List.length sample_mp4) |} in
  vlen v <= vcap v /\ findAtomPosition v mvhd_type = Ok 24 /\ type_at v 24 = mvhd_type.
Proof.
  intros v.
  assert (H1 : vlen v <= vcap v) by (apply Z.leb_le; vm_compute; reflexivity).
  assert (H2 : findAtomPosition v mvhd_type = Ok 24) by (vm_compute; reflexivity).
  split; [exact H1|]. split; [exact H2|].
  exact (proj2 (proj2 (findAtomPosition_sound v mvhd_type 24 H1 H2))).
Defined.

Lemma patch_to_update h data unixTime r :
  patchVideoMetadata h data unixTime = Ok r ->
  exists atoms moovAtom mvhdAtom,
    ParseMP4Atoms (slice_bytes h data) = Ok atoms
    /\ FindAtom atoms (bytes_of "moov") = Some moovAtom
    /\ FindAtomRecursive moovAtom mvhd_type = Some mvhdAtom
    /\ updateMvhdCreationTime h data mvhdAtom unixTime = Ok r.
Proof.
  intros H. unfold patchVideoMetadata in H.
  destruct (slen data <? 8); [discriminate H|].
  destruct (negb _); [discriminate H|].
  destruct (ParseMP4Atoms (slice_bytes h data)) as [atoms| |] eqn:P;
    cbn [wrap_err bind] in H; try discriminate H.
  destruct (FindAtom atoms _) as [moov|] eqn:M; [|discriminate H].
  destruct (FindAtomRecursive moov mvhd_type) as [mvhd|] eqn:V; [|discriminate H].
  exists atoms, moov, mvhd. split; [reflexivity|]. split; [exact M|]. split; [exact V|].
  destruct (updateMvhdCreationTime h data mvhd unixTime); try discriminate H.
  exact H.
Qed.

(** X19: a successful UpdateVideoMetadata writes a fresh copy of the buffer
    that differs from it only in the creation and modification times after
    the mvhd header found by findAtomPosition: two 32-bit fields when the
    version byte of the mvhd atom found by the parse is 0, two 64-bit
    fields when it is 1. *)
Theorem patchVideoMetadata_writes h data unixTime h' newData :
  slen data <= vcap (view_of h data) ->
  patchVideoMetadata h data unixTime = Ok (h', newData) ->
  let b := slice_bytes h data in
  let q := UnixToQuickTime unixTime in
  exists atoms moovAtom mvhdAtom p,
  ParseMP4Atoms b = Ok atoms
  /\ FindAtom atoms (bytes_of "moov") = Some moovAtom
  /\ FindAtomRecursive moovAtom mvhd_type = Some mvhdAtom
  /\ findAtomPosition (view_of h data) mvhd_type = Ok p
  /\ type_at (view_of h data) p = mvhd_type
  /\ newData = {| sarr := List.length h; soff := 0; slen := slen data |}
  /\ (bz (nth 0 (Data mvhdAtom) Byte.x00) = 0
      /\ (Z.to_nat (p + 12) + 8 <= List.length b)%nat
      /\ h' = h ++ [firstn (Z.to_nat (p + 12)) b ++ be32_bytes q ++ be32_bytes q
                    ++ skipn (Z.to_nat (p + 12) + 8) b]
      \/ bz (nth 0 (Data mvhdAtom) Byte.x00) = 1
      /\ (Z.to_nat (p + 12) + 16 <= List.length b)%nat
      /\ h' = h ++ [firstn (Z.to_nat (p + 12)) b ++ be64_bytes q ++ be64_bytes q
                    ++ skipn (Z.to_nat (p + 12) + 16) b]).
Proof.
  intros Hv H b q.
  destruct (patch_to_update _ _ _ _ H) as (atoms & moov & mvhd & HP & HM & HR & Hu).
  destruct (mvhd_writes _ _ _ _ _ _ Hu) as (p & F & Hnd & Hw).
  exists atoms, moov, mvhd, p.
  split; [exact HP|]. split; [exact HM|]. split; [exact HR|]. split; [exact F|].
  split; [exact (proj2 (proj2 (position_sound _ _ _ 0 p (Z.le_refl 0) Hv F)))|].
  split; [exact Hnd | exact Hw].
Qed.

Lemma patchVideoMetadata_writes_witness :
  let s := {| sarr := 0; soff := 0; slen := Z.of_nat (List.length sample_mp4) |} in
  exists h' newData,
    slen s <= vcap (view_of [sample_mp4] s)
    /\ patchVideoMetadata [sample_mp4] s 1700000000 = Ok (h', newData)
    /\ type_at (view_of [sample_mp4] s) 24 = mvhd_type.
Proof.
  intros s.
  assert (H1 : slen s <= vcap (view_of [sample_mp4] s)) by (apply Z.leb_le; vm_compute; reflexivity).
  remember (patchVideoMetadata [sample_mp4] s 1700000000) as u eqn:E.
  destruct u as [[h' nd]| |]; try (vm_compute in E; discriminate E).
  exists h', nd. split; [exact H1|]. split; [reflexivity|].
  destruct (patchVideoMetadata_writes _ _ _ _ _ H1 (eq_sym E))
    as (atoms & moov & mvhd & p & _ & _ & _ & F & T & _).
  assert (Hp : findAtomPosition (view_of [sample_mp4] s) mvhd_type = Ok 24)
    by (vm_compute; reflexivity).
  rewrite F in Hp. injection Hp as ->. exact T.
Defined.
